(** * CPU sets and CPU lists of the [cpus] Go package

    A shallow embedding of [set.go] and [list.go]: the packed bit mask [Set]
    (a slice of [uint64] words), the range list [List] (a slice of
    [[2]uint] pairs), the conversions between them, the range algebra, and
    the affinity system calls with their shared size cache.

    Conventions of the embedding.
    - A [uint], [uint64] or [int] is a [Z]; every operation that can leave
      the 64-bit range is followed by [wrap].
    - A slice is the list of its elements; the heap model of section
      "Slices on a heap" keeps backing arrays and slice headers apart where
      aliasing matters.
    - A Go function that may panic or loop returns an [outcome].  Loops are
      bounded by a budget of iterations, chosen per loop from its arguments;
      the theorems show that the functions return within it.
    - Memory is not bounded: [make] always succeeds, where the Go runtime
      panics on a length beyond its allocation limit.  What is proved of sets
      too long to allocate is proved of the model only. *)

From stdpp Require Import base list gmap.
From Stdlib Require Import ZArith Lia.

Open Scope Z_scope.

(** ** Outcomes of Go code *)

Inductive outcome (A : Type) : Type :=
| Returns (a : A)
| Panics
| OutOfFuel.

Arguments Returns {A} a.
Arguments Panics {A}.
Arguments OutOfFuel {A}.

Definition obind {A B : Type} (m : outcome A) (k : A → outcome B) : outcome B :=
  match m with
  | Returns a => k a
  | Panics => Panics
  | OutOfFuel => OutOfFuel
  end.

#[global] Instance outcome_ret : MRet outcome := λ A a, Returns a.
#[global] Instance outcome_bind : MBind outcome := λ A B k m, obind m k.

(** ** Machine integers *)

(** [unsafe.Sizeof(Set{0}[0])]: a [uint64] has eight bytes. *)
Definition wordbytesize : Z := 8.
Definition bitsperword : Z := wordbytesize * 8.

Definition uint_modulus : Z := 2 ^ 64.
Definition wrap (x : Z) : Z := x mod uint_modulus.
Definition is_uint (x : Z) : Prop := 0 ≤ x < uint_modulus.

(** [^uint64(0)] *)
Definition allones : Z := uint_modulus - 1.

(** [x <<= 1] on a [uint64] *)
Definition shl1 (x : Z) : Z := wrap (Z.shiftl x 1).

(** ** Set *)

(** [type Set []uint64] *)
Abbreviation CPUSet := (list Z).

(** [uint(len(s))] *)
Definition len {A : Type} (s : list A) : Z := Z.of_nat (length s).

(** A [Set] the program can hold: every element is a [uint64], and the bit
    count [len(s)*64] is a [uint] ([IsSet] and [AddRange] compute it). *)
Definition wf_Set (s : CPUSet) : Prop :=
  Forall is_uint s ∧ len s * bitsperword < uint_modulus.

Definition setBitIndex (cpu : Z) : Z := cpu / bitsperword.

Definition setBitMask (cpu : Z) : Z := wrap (Z.shiftl 1 (cpu mod bitsperword)).

(** [s[i]], which panics out of range *)
Definition word_at (s : CPUSet) (i : Z) : outcome Z :=
  match s !! Z.to_nat i with
  | Some w => Returns w
  | None => Panics
  end.

(** [func (s Set) IsSet(cpu uint) bool].  The index expression cannot panic
    behind the guard (lemma [IsSet_index_in_range]), so the result is a
    plain [bool]. *)
Definition IsSet (s : CPUSet) (cpu : Z) : bool :=
  if wrap (len s * bitsperword) <=? cpu then false
  else match s !! Z.to_nat (setBitIndex cpu) with
       | Some w => negb (Z.land w (setBitMask cpu) =? 0)
       | None => false
       end.

(** Bit [cpu mod 64] of word [cpu / 64], the membership the package
    documents for [Set]; [IsSet] computes it (lemma [IsSet_bit_of]). *)
Definition bit_of (s : CPUSet) (cpu : Z) : bool :=
  match s !! Z.to_nat (cpu / 64) with
  | Some w => Z.testbit w (cpu mod 64)
  | None => false
  end.

(** [make(Set, n)] *)
Definition make (n : Z) : CPUSet := replicate (Z.to_nat n) 0.

(** [copy(dst, src)] copies [min(len(dst), len(src))] elements. *)
Definition copy (dst src : CPUSet) : CPUSet :=
  take (length dst) src ++ drop (length src) dst.

(** The loop of [AddRange]:
    [for cpu := from; cpu <= to; cpu++ { set[setBitIndex(cpu)] |= setBitMask(cpu) }] *)
Fixpoint AddRange_loop (fuel : nat) (set : CPUSet) (cpu to : Z) : outcome CPUSet :=
  if cpu <=? to then
    match fuel with
    | O => OutOfFuel
    | S fuel' =>
        w ← word_at set (setBitIndex cpu);
        AddRange_loop fuel'
          (<[Z.to_nat (setBitIndex cpu) := Z.lor w (setBitMask cpu)]> set)
          (wrap (cpu + 1)) to
    end
  else Returns set.

(** [func (s Set) AddRange(from, to uint) Set].  [set[0:len(s)]] panics
    when [len(s)] exceeds the capacity of [set]. *)
Definition AddRange (s : CPUSet) (from to : Z) : outcome CPUSet :=
  if from >? to then Panics
  else
    let setLen := Z.max (wrap (to / bitsperword + 1)) (wrap (len s * bitsperword)) in
    let set := make setLen in
    if len s >? setLen then Panics
    else
      let set := copy (take (length s) set) s ++ drop (length s) set in
      AddRange_loop (Z.to_nat (to - from + 2)) set from to.

(** The length [AddRange] gives its result when nothing wraps around. *)
Definition AddRange_len (s : CPUSet) (to : Z) : Z :=
  Z.max (to / bitsperword + 1) (len s * bitsperword).

(** The loop of [Set.IsOverlapping],
    [for idx := range min(len(s), len(another))], with [todo] turns left. *)
Fixpoint Set_IsOverlapping_loop (todo : nat) (idx : Z) (s another : CPUSet)
  : outcome bool :=
  match todo with
  | O => Returns false
  | S todo' =>
      w ← word_at s idx;
      v ← word_at another idx;
      if negb (Z.land w v =? 0) then Returns true
      else Set_IsOverlapping_loop todo' (idx + 1) s another
  end.

(** [func (s Set) IsOverlapping(another Set) bool] *)
Definition Set_IsOverlapping (s another : CPUSet) : outcome bool :=
  Set_IsOverlapping_loop (Z.to_nat (Z.min (len s) (len another))) 0 s another.

(** The loop of [Set.Overlap]: [overlap[idx] = s[idx] & another[idx]]. *)
Fixpoint Set_Overlap_loop (todo : nat) (idx : Z) (s another overlap : CPUSet)
  : outcome CPUSet :=
  match todo with
  | O => Returns overlap
  | S todo' =>
      w ← word_at s idx;
      v ← word_at another idx;
      _ ← word_at overlap idx;
      Set_Overlap_loop todo' (idx + 1) s another
        (<[Z.to_nat idx := Z.land w v]> overlap)
  end.

(** [func (s Set) Overlap(another Set) Set] *)
Definition Set_Overlap (s another : CPUSet) : outcome CPUSet :=
  let l := Z.min (len s) (len another) in
  Set_Overlap_loop (Z.to_nat l) 0 s another (make l).

(** [bits.Len64]: the number of bits needed to write [x]. *)
Definition Len64 (x : Z) : Z := if x =? 0 then 0 else Z.log2 x + 1.

(** The inner loop of [Single]: after the sole bit was found, no further
    element may be non-zero. *)
Fixpoint Single_rest (rest : CPUSet) : bool :=
  match rest with
  | [] => true
  | w :: rest' => if negb (w =? 0) then false else Single_rest rest'
  end.

(** The outer loop of [Single] over [s[idx:]]. *)
Fixpoint Single_loop (rest : CPUSet) (idx : Z) : Z * bool :=
  match rest with
  | [] => (0, false)
  | el :: rest' =>
      if negb (el =? 0) then
        if (el =? 0) || negb (Z.land el (wrap (el - 1)) =? 0) then (0, false)
        else
          let cpu := wrap (Len64 el - 1 + idx * 64) in
          if Single_rest rest' then (cpu, true) else (0, false)
      else Single_loop rest' (idx + 1)
  end.

(** [func (s Set) Single() (cpu uint, ok bool)] *)
Definition Single (s : CPUSet) : Z * bool :=
  if len s =? 0 then (0, false) else Single_loop s 0.

(** [cpu] is the one and only member of [s]. *)
Definition sole_member (s : CPUSet) (cpu : Z) : Prop :=
  0 ≤ cpu ∧ ∀ c, 0 ≤ c → IsSet s c = true ↔ c = cpu.

(** ** List *)

(** [type List [][2]uint] *)
Abbreviation CPUList := (list (Z * Z)).

(** *** Set.List *)

(** The three scan variables of [Set.List]. *)
Record cursor : Type := Cursor {
  cpuno : Z;
  cpuwordidx : Z;
  cpuwordmask : Z
}.

(** The two bit tests of [Set.List]: [s[i]&mask != 0] when a set bit is
    wanted, [s[i]&mask == 0] when an unset one is. *)
Definition bit_is (want : bool) (x : Z) : bool :=
  if want then negb (x =? 0) else x =? 0.

(** The scans inside one word that watch for the mask falling off the MSB
    end (source lines 233-245, looking for a set bit, and 279-291, looking
    for an unset one).  The flag tells whether the wanted bit was found
    ([true]) or the word was left ([false]). *)
Fixpoint scanInWord (want : bool) (fuel : nat) (s : CPUSet) (c : cursor)
  : outcome (bool * cursor) :=
  match fuel with
  | O => OutOfFuel
  | S fuel' =>
      w ← word_at s (cpuwordidx c);
      if bit_is want (Z.land w (cpuwordmask c)) then Returns (true, c)
      else
        let cpuno' := wrap (cpuno c + 1) in
        let mask' := shl1 (cpuwordmask c) in
        if mask' =? 0 then Returns (false, Cursor cpuno' (wrap (cpuwordidx c + 1)) 1)
        else scanInWord want fuel' s (Cursor cpuno' (cpuwordidx c) mask')
  end.

(** The fast-forward loops (lines 249-252 over all-zero words, 295-298
    over all-one words): [for cpuwordidx < setlen && s[cpuwordidx] == v]. *)
Fixpoint skipWords (v : Z) (fuel : nat) (s : CPUSet) (c : cursor) : outcome cursor :=
  if cpuwordidx c <? len s then
    w ← word_at s (cpuwordidx c);
    if w =? v then
      match fuel with
      | O => OutOfFuel
      | S fuel' =>
          skipWords v fuel' s
            (Cursor (wrap (cpuno c + 64)) (wrap (cpuwordidx c + 1)) (cpuwordmask c))
      end
    else Returns c
  else Returns c.

(** The scans without a fall-off check (lines 258-264 and 308-315):
    [for { if <test> { break }; cpuno++; cpuwordmask <<= 1 }]. *)
Fixpoint scanBit (want : bool) (fuel : nat) (s : CPUSet) (c : cursor) : outcome cursor :=
  match fuel with
  | O => OutOfFuel
  | S fuel' =>
      w ← word_at s (cpuwordidx c);
      if bit_is want (Z.land w (cpuwordmask c)) then Returns c
      else scanBit want fuel' s
             (Cursor (wrap (cpuno c + 1)) (cpuwordidx c) (shl1 (cpuwordmask c)))
  end.

(** Lines 267-274: step over the CPU just found. *)
Definition stepOver (c : cursor) : cursor :=
  let cpuno' := wrap (cpuno c + 1) in
  let mask' := shl1 (cpuwordmask c) in
  if mask' =? 0 then Cursor cpuno' (wrap (cpuwordidx c + 1)) 1
  else Cursor cpuno' (cpuwordidx c) mask'.

(** [append(cpulist, [2]uint{cpufrom, cpuno - 1})] *)
Definition appendRange (cpulist : CPUList) (cpufrom : Z) (c : cursor) : CPUList :=
  cpulist ++ [(cpufrom, wrap (cpuno c - 1))].

(** One turn of the loop labelled [findNextCPUInWord]: either the function
    returns ([inl]) or the loop goes round with a new cursor and list
    ([inr]). *)
Definition List_body (s : CPUSet) (c : cursor) (cpulist : CPUList)
  : outcome (CPUList + cursor * CPUList) :=
  '(_, c) ← (if negb (cpuwordmask c =? 1) then scanInWord true 64 s c
             else Returns (true, c));
  c ← skipWords 0 (length s) s c;
  if len s <=? cpuwordidx c then Returns (inl cpulist)
  else
    c ← scanBit true 65 s c;
    let cpufrom := cpuno c in
    let c := stepOver c in
    '(found, c) ← (if negb (cpuwordmask c =? 1) then scanInWord false 64 s c
                   else Returns (false, c));
    if (found : bool) then Returns (inr (c, appendRange cpulist cpufrom c))
    else
      c ← skipWords allones (length s) s c;
      if len s <=? cpuwordidx c then Returns (inl (appendRange cpulist cpufrom c))
      else
        c ← scanBit false 65 s c;
        Returns (inr (c, appendRange cpulist cpufrom c)).

Fixpoint List_loop (fuel : nat) (s : CPUSet) (c : cursor) (cpulist : CPUList)
  : outcome CPUList :=
  match fuel with
  | O => OutOfFuel
  | S fuel' =>
      r ← List_body s c cpulist;
      match r with
      | inl done => Returns done
      | inr (c', cpulist') => List_loop fuel' s c' cpulist'
      end
  end.

(** [func (s Set) List() List].  Every turn of the outer loop that does not
    return moves [cpuno] forward, so [64*len(s)+1] turns are enough. *)
Definition Set_List (s : CPUSet) : outcome CPUList :=
  List_loop (64 * length s + 1) s (Cursor 0 0 1) [].

(** *** List.Set *)

(** The loop of [List.Set], over the ranges taken from the last one down. *)
Fixpoint List_Set_loop (rs : CPUList) (s : CPUSet) : outcome CPUSet :=
  match rs with
  | [] => Returns s
  | r :: rs' => s' ← AddRange s r.1 r.2; List_Set_loop rs' s'
  end.

(** [func (l List) Set() Set] *)
Definition List_Set (l : CPUList) : outcome CPUSet :=
  if len l =? 0 then Returns [] else List_Set_loop (reverse l) [].

(** *** Range algebra *)

(** [func (l List) IsOverlapping(another List) bool].  The outer recursion is
    the [for _, r1 := range l]; the inner one is the [for] around [r2idx],
    whose argument is the part [another[r2idx:]] still to be compared. *)
Fixpoint List_IsOverlapping (l : CPUList) : CPUList → bool :=
  match l with
  | [] => λ _, false
  | r1 :: l' =>
      fix inner (another : CPUList) : bool :=
        match another with
        | [] => false
        | r2 :: another' =>
            if (r2.1 <=? r1.2) && (r1.1 <=? r2.2) then true
            else if r2.1 >? r1.2 then List_IsOverlapping l' another
            else inner another'
        end
  end.

(** [func (l List) Overlap(another List) List], in the same shape, with the
    list of overlaps found so far. *)
Fixpoint List_Overlap_loop (l : CPUList) : CPUList → CPUList → CPUList :=
  match l with
  | [] => λ _ overlaps, overlaps
  | r1 :: l' =>
      fix inner (another : CPUList) (overlaps : CPUList) : CPUList :=
        match another with
        | [] => overlaps
        | r2 :: another' =>
            let overlaps :=
              if (r2.1 <=? r1.2) && (r1.1 <=? r2.2)
              then overlaps ++ [(Z.max r1.1 r2.1, Z.min r1.2 r2.2)]
              else overlaps in
            if r2.2 >? r1.2 then List_Overlap_loop l' another overlaps
            else inner another' overlaps
        end
  end.

Definition List_Overlap (l another : CPUList) : CPUList :=
  List_Overlap_loop l another [].

(** [func (l List) Remove() (cpu uint, remaining List)] *)
Definition List_Remove (l : CPUList) : outcome (Z * CPUList) :=
  match l with
  | [] => Panics
  | lowestRange :: rest =>
      if lowestRange.1 <? lowestRange.2 then
        let cpu := lowestRange.1 in
        Returns (cpu, [(wrap (cpu + 1), lowestRange.2)] ++ rest)
      else Returns (lowestRange.1, rest)
  end.

(** *** Well-formed range lists *)

Definition in_range (c : Z) (r : Z * Z) : Prop := r.1 ≤ c ≤ r.2.

(** The CPUs of a list: those inside one of its ranges. *)
Definition covers (l : CPUList) (c : Z) : Prop := Exists (in_range c) l.

(** The number of CPUs in a list of ranges with [from <= to]. *)
Fixpoint List_count (l : CPUList) : Z :=
  match l with
  | [] => 0
  | r :: l' => (r.2 - r.1 + 1) + List_count l'
  end.

(** Ranges of [uint]s with [from <= to], listed upwards from [lo], each
    starting at least [gap] above the end of the one before. *)
Fixpoint ranges_from (gap lo : Z) (l : CPUList) : Prop :=
  match l with
  | [] => True
  | r :: l' =>
      lo ≤ r.1 ∧ r.1 ≤ r.2 ∧ r.2 < uint_modulus ∧ ranges_from gap (r.2 + gap) l'
  end.

(** Canonical form: increasing and not overlapping. *)
Definition canonical (l : CPUList) : Prop := ranges_from 1 0 l.

(** Minimal form: canonical, and no two neighbours could be merged. *)
Definition minimal (l : CPUList) : Prop := ranges_from 2 0 l.

#[global] Instance ranges_from_dec gap lo l : Decision (ranges_from gap lo l).
Proof. revert lo. induction l as [|r l IH]; intros lo; simpl; apply _. Defined.

(** The members of a set, and emptiness as the package documents it: "a zero
    length Set represents an empty Set, as do non-zero length Sets with only
    zero value elements". *)
Definition empty_Set (s : CPUSet) : Prop := ∀ c, 0 ≤ c → IsSet s c = false.

(** ** Affinity system calls *)

Inductive sysno : Type := SYS_SCHED_GETAFFINITY | SYS_SCHED_SETAFFINITY.

(** [syscall.EINVAL] on Linux *)
Definition EINVAL : Z := 22.

(** What [unix.RawSyscall] hands to the kernel: the call number, the task,
    the buffer size in bytes, and the words behind the buffer pointer. *)
Record rawcall : Type := RawCall {
  call_nr : sysno;
  call_tid : Z;
  call_size : Z;
  call_buf : CPUSet
}.

(** [func SetAffinity(tid int, cpus Set) error] against a kernel [os] that
    answers a call with an errno (0 for success).  The result pairs the
    calls issued with the error returned ([None] for [nil]). *)
Definition SetAffinity (os : rawcall → Z) (tid : Z) (cpus : CPUSet)
  : list rawcall * option Z :=
  if len cpus =? 0 then ([], Some EINVAL)
  else
    let call := RawCall SYS_SCHED_SETAFFINITY tid (wrap (len cpus * wordbytesize)) cpus in
    let e := os call in
    ([call], if negb (e =? 0) then Some e else None).

(** *** Affinity and the shared size cache

    [Affinity] touches the shared [setsize] in three places: the first
    [Load], the [CompareAndSwap] and the [Load] after a lost swap.  Go's
    atomics are sequentially consistent, so a run of any number of
    goroutines is an interleaving of these steps.  A task is a call of
    [Affinity] at one of its program points, with its local variables. *)
Inductive task : Type :=
| AtLoad                               (* setlenStart := setsize.Load() *)
| AtSyscall (setlenStart setlen : Z)   (* make, RawSyscall *)
| AtCAS (setlenStart setlen : Z)       (* setsize.CompareAndSwap *)
| AtReload (setlen : Z)                (* setlenStart = setsize.Load() *)
| Returned (err : option Z)
| Panicked.

(** One step of a task against the cache: cache before, task before, cache
    after, task after.  The kernel's answer is not determined. *)
Inductive task_step : Z → task → Z → task → Prop :=
| step_load c :
    task_step c AtLoad c (AtSyscall c c)
| step_empty_buffer c st :
    (* &set[0] of an empty slice *)
    task_step c (AtSyscall st 0) c Panicked
| step_einval c st sl :
    sl ≠ 0 → task_step c (AtSyscall st sl) c (AtSyscall st (wrap (sl * 2)))
| step_errno c st sl e :
    sl ≠ 0 → e ≠ 0 → e ≠ EINVAL → task_step c (AtSyscall st sl) c (Returned (Some e))
| step_success c st sl :
    sl ≠ 0 → task_step c (AtSyscall st sl) c (AtCAS st sl)
| step_cas_won st sl :
    task_step st (AtCAS st sl) sl (Returned None)
| step_cas_lost c st sl :
    c ≠ st → task_step c (AtCAS st sl) c (AtReload sl)
| step_reload_done c sl :
    c > sl → task_step c (AtReload sl) c (Returned None)
| step_reload_retry c sl :
    c ≤ sl → task_step c (AtReload sl) c (AtCAS c sl).

Record config : Type := Config {
  setsize : Z;
  tasks : list task
}.

(** A step of the program: a goroutine enters [Affinity], or some task
    moves. *)
Inductive step : config → config → Prop :=
| step_call c ts :
    step (Config c ts) (Config c (ts ++ [AtLoad]))
| step_move c c' ts i t t' :
    ts !! i = Some t → task_step c t c' t' →
    step (Config c ts) (Config c' (<[i := t']> ts)).

(** [func init() { setsize.Store(1) }] *)
Definition init : config := Config 1 [].

(** *** Affinity, one caller at a time

    The same function run to its end without interference: the cache goes
    in and comes out, and the calls issued are collected.  The kernel
    answers a call with an errno and the words it wrote to the buffer. *)

(** The loop around [CompareAndSwap]; the result is the new value of
    [setsize]. *)
Fixpoint Affinity_publish (fuel : nat) (setsize setlenStart setlen : Z) : outcome Z :=
  match fuel with
  | O => OutOfFuel
  | S fuel' =>
      if setsize =? setlenStart then Returns setlen
      else
        let setlenStart := setsize in
        if setlenStart >? setlen then Returns setsize
        else Affinity_publish fuel' setsize setlenStart setlen
  end.

(** The outer loop, with the buffer size doubled on [EINVAL].  The result is
    the returned set or error, the cache, and the calls issued. *)
Fixpoint Affinity_loop (fuel : nat) (os : rawcall → Z * CPUSet)
    (tid setsize setlenStart setlen : Z) (calls : list rawcall)
  : outcome ((CPUSet + Z) * Z * list rawcall) :=
  match fuel with
  | O => OutOfFuel
  | S fuel' =>
      let set := make setlen in
      if len set =? 0 then Panics
      else
        let call := RawCall SYS_SCHED_GETAFFINITY tid (wrap (setlen * wordbytesize)) set in
        let '(e, written) := os call in
        let set := copy set written in
        if negb (e =? 0) then
          if e =? EINVAL then
            Affinity_loop fuel' os tid setsize setlenStart (wrap (setlen * 2))
              (calls ++ [call])
          else Returns (inr e, setsize, calls ++ [call])
        else
          setsize' ← Affinity_publish 2 setsize setlenStart setlen;
          Returns (inl set, setsize', calls ++ [call])
  end.

(** [func Affinity(tid int) (Set, error)].  After 64 doublings [setlen] is
    zero and [&set[0]] panics, so 65 turns are all there can be. *)
Definition Affinity (os : rawcall → Z * CPUSet) (tid setsize : Z)
  : outcome ((CPUSet + Z) * Z * list rawcall) :=
  let setlenStart := setsize in
  Affinity_loop 65 os tid setsize setlenStart setlenStart [].

(** A kernel whose affinity masks take [need] words: it answers [EINVAL] to
    a smaller buffer and succeeds on any other. *)
Definition kernel_needs (os : rawcall → Z * CPUSet) (need : Z) : Prop :=
  ∀ call,
    ((os call).1 = EINVAL ∧ call_size call < need * wordbytesize)
    ∨ ((os call).1 = 0 ∧ need * wordbytesize ≤ call_size call).

(** The calls of a doubling search: [n] buffers of [2^b], [2^(b+1)], ...
    words. *)
Fixpoint probes (tid b : Z) (n : nat) : list rawcall :=
  match n with
  | O => []
  | S n' =>
      RawCall SYS_SCHED_GETAFFINITY tid (2 ^ b * wordbytesize) (make (2 ^ b))
      :: probes tid (b + 1) n'
  end.

(** ** Slices on a heap

    A slice header points into a backing array; two headers may share one.
    The heap maps array addresses to array contents. *)
Record slice : Type := Slice {
  slice_arr : positive;
  slice_off : nat;
  slice_len : nat;
  slice_cap : nat
}.

Definition heap_words (h : gmap positive (list Z)) (s : slice) : option CPUSet :=
  a ← h !! slice_arr s;
  if decide (slice_off s + slice_len s ≤ length a)%nat
  then Some (take (slice_len s) (drop (slice_off s) a))
  else None.

(** [s[i]] *)
Definition heap_load (h : gmap positive (list Z)) (s : slice) (i : Z) : outcome Z :=
  if (0 <=? i) && (i <? Z.of_nat (slice_len s)) then
    match h !! slice_arr s with
    | Some a =>
        match a !! (slice_off s + Z.to_nat i)%nat with
        | Some w => Returns w
        | None => Panics
        end
    | None => Panics
    end
  else Panics.

(** [s[i] = v] for an index already checked *)
Definition heap_store (h : gmap positive (list Z)) (s : slice) (i : Z) (v : Z)
  : gmap positive (list Z) :=
  alter (λ a, <[(slice_off s + Z.to_nat i)%nat := v]> a) (slice_arr s) h.

Fixpoint AddRange_loop_heap (fuel : nat) (h : gmap positive (list Z)) (set : slice)
    (cpu to : Z) : outcome (gmap positive (list Z)) :=
  if cpu <=? to then
    match fuel with
    | O => OutOfFuel
    | S fuel' =>
        w ← heap_load h set (setBitIndex cpu);
        AddRange_loop_heap fuel'
          (heap_store h set (setBitIndex cpu) (Z.lor w (setBitMask cpu)))
          set (wrap (cpu + 1)) to
    end
  else Returns h.

(** [AddRange] with its receiver a slice header and [make] an allocation. *)
Definition AddRange_heap (h : gmap positive (list Z)) (s : slice) (from to : Z)
  : outcome (gmap positive (list Z) * slice) :=
  if from >? to then Panics
  else
    let setLen :=
      Z.max (wrap (to / bitsperword + 1)) (wrap (Z.of_nat (slice_len s) * bitsperword)) in
    let p := fresh (dom h) in
    let h := <[p := make setLen]> h in
    let set := Slice p 0 (Z.to_nat setLen) (Z.to_nat setLen) in
    if Z.of_nat (slice_len s) >? setLen then Panics
    else
      match heap_words h s with
      | None => Panics
      | Some src =>
          let h := alter (λ a, copy (take (slice_len s) a) src ++ drop (slice_len s) a) p h in
          h' ← AddRange_loop_heap (Z.to_nat (to - from + 2)) h set from to;
          Returns (h', set)
      end.

(** [func (s Set) PinTask(tid int) error] *)
Definition PinTask (os : rawcall → Z) (s : CPUSet) (tid : Z) : list rawcall * option Z :=
  SetAffinity os tid s.

(** ** Invariants used in the proofs *)

(** The sizes [Affinity] ever holds are the powers of two of a [uint64]. *)
Definition word_count (x : Z) : Prop := ∃ a, 0 ≤ a < 64 ∧ x = 2 ^ a.

(** What a task knows about its local variables: [setlen] is a word count
    (or has wrapped to zero, just before the panic), and it is not below
    [setlenStart] whenever a swap is about to be tried. *)
Definition task_ok (t : task) : Prop :=
  match t with
  | AtSyscall st sl => sl = 0 ∨ (word_count sl ∧ st ≤ sl)
  | AtCAS st sl => word_count sl ∧ st ≤ sl
  | AtReload sl => word_count sl
  | AtLoad | Returned _ | Panicked => True
  end.

Definition config_ok (cfg : config) : Prop :=
  word_count (setsize cfg) ∧ Forall task_ok (tasks cfg).

(** A cursor of [Set.List] in step with the set: the mask is bit [k] of the
    word at [cpuwordidx], [cpuno] is the CPU number of that bit, and inside
    a word ([k] not 0) the word exists. *)
Definition cursor_ok (s : CPUSet) (c : cursor) : Prop :=
  ∃ k, 0 ≤ k < 64 ∧ cpuwordmask c = 2 ^ k ∧
       cpuno c = 64 * cpuwordidx c + k ∧
       0 ≤ cpuwordidx c ≤ len s ∧ (k ≠ 0 → cpuwordidx c < len s).

(** All CPUs from [lo] up to, not including, [hi] have membership [b]. *)
Definition bits_run (s : CPUSet) (b : bool) (lo hi : Z) : Prop :=
  ∀ p, lo ≤ p < hi → bit_of s p = b.

(** The two halves of a turn of the loop of [Set.List]: up to the next CPU in
    the set (lines 229-264), and from the CPU after it to the next CPU not
    in the set (lines 275-315).  [List_body] is their composition (lemma
    [List_body_phases]). *)
Definition findSet (s : CPUSet) (c : cursor) : outcome (option cursor) :=
  '(_, c) ← (if negb (cpuwordmask c =? 1) then scanInWord true 64 s c
             else Returns (true, c));
  c ← skipWords 0 (length s) s c;
  if len s <=? cpuwordidx c then Returns None
  else c ← scanBit true 65 s c; Returns (Some c).

Definition findUnset (s : CPUSet) (c : cursor) : outcome (bool * cursor) :=
  '(found, c) ← (if negb (cpuwordmask c =? 1) then scanInWord false 64 s c
                 else Returns (false, c));
  if (found : bool) then Returns (true, c)
  else
    c ← skipWords allones (length s) s c;
    if len s <=? cpuwordidx c then Returns (false, c)
    else c ← scanBit false 65 s c; Returns (true, c).

(** What holds of the cursor and the list at the head of the loop. *)
Definition list_inv (s : CPUSet) (c : cursor) (cpulist : CPUList) : Prop :=
  cursor_ok s c ∧
  minimal cpulist ∧
  Forall (λ r, r.2 < cpuno c) cpulist ∧
  (cpulist ≠ [] → bit_of s (cpuno c) = false) ∧
  (∀ p, 0 ≤ p < cpuno c → bit_of s p = true ↔ covers cpulist p).

(** * Proofs *)

Lemma bind_Returns {A B : Type} (a : A) (k : A → outcome B) : (Returns a ≫= k) = k a.
Proof. reflexivity. Qed.

(** ** Machine integers and bits *)

Ltac consts :=
  unfold is_uint, allones, bitsperword, wordbytesize, uint_modulus in *;
  change (2 ^ 64) with 18446744073709551616 in *;
  change (8 * 8) with 64 in *.

Lemma wrap_small x : 0 ≤ x < uint_modulus → wrap x = x.
Proof. intros H. unfold wrap. apply Z.mod_small. exact H. Qed.

Lemma wrap_is_uint x : is_uint (wrap x).
Proof. unfold wrap, is_uint. apply Z.mod_pos_bound. consts. lia. Qed.

Lemma setBitMask_pow2 cpu : setBitMask cpu = 2 ^ (cpu mod 64).
Proof.
  unfold setBitMask. consts.
  assert (Hk : 0 ≤ cpu mod 64 < 64) by (apply Z.mod_pos_bound; lia).
  rewrite Z.shiftl_1_l. apply wrap_small. consts. split.
  - apply Z.pow_nonneg. lia.
  - change 18446744073709551616 with (2 ^ 64). apply Z.pow_lt_mono_r; lia.
Qed.

Lemma land_pow2 w k :
  0 ≤ k → Z.land w (2 ^ k) = if Z.testbit w k then 2 ^ k else 0.
Proof.
  intros Hk. apply Z.bits_inj'. intros n Hn.
  rewrite Z.land_spec, Z.pow2_bits_eqb by lia.
  destruct (Z.eqb_spec k n) as [->|Hne].
  - destruct (Z.testbit w n) eqn:E; simpl.
    + rewrite Z.pow2_bits_true; [reflexivity | lia].
    + symmetry. apply Z.bits_0.
  - rewrite andb_false_r. destruct (Z.testbit w k).
    + rewrite Z.pow2_bits_false; [reflexivity | exact Hne].
    + symmetry. apply Z.bits_0.
Qed.

Lemma land_pow2_test w k :
  0 ≤ k → negb (Z.land w (2 ^ k) =? 0) = Z.testbit w k.
Proof.
  intros Hk. rewrite land_pow2 by exact Hk.
  destruct (Z.testbit w k); [|reflexivity].
  assert (0 < 2 ^ k) by (apply Z.pow_pos_nonneg; lia).
  destruct (Z.eqb_spec (2 ^ k) 0); [lia | reflexivity].
Qed.

Lemma gtb_le a b : a ≤ b → (a >? b) = false.
Proof. intros H. rewrite Z.gtb_ltb. apply Z.ltb_ge. exact H. Qed.

Lemma gtb_gt a b : b < a → (a >? b) = true.
Proof. intros H. rewrite Z.gtb_ltb. apply Z.ltb_lt. exact H. Qed.

Lemma divmod_eq c d :
  0 ≤ c → 0 ≤ d → (c / 64 = d / 64 ∧ c mod 64 = d mod 64) ↔ c = d.
Proof.
  intros Hc Hd. split; [|intros ->; split; reflexivity].
  intros [Hq Hr].
  rewrite (Z.div_mod c 64), (Z.div_mod d 64) by lia. rewrite Hq, Hr. reflexivity.
Qed.

(** ** IsSet *)

(** The index expression of [IsSet] is in range whenever the guard lets the
    call through. *)
Lemma IsSet_index_in_range (s : CPUSet) cpu :
  0 ≤ cpu → cpu < wrap (len s * bitsperword) →
  is_Some (s !! Z.to_nat (setBitIndex cpu)).
Proof.
  intros H0 Hlt. apply lookup_lt_is_Some.
  assert (wrap (len s * bitsperword) ≤ len s * bitsperword).
  { unfold wrap. apply Z.mod_le; unfold len; consts; lia. }
  unfold setBitIndex, len in *. consts.
  assert (cpu / 64 < Z.of_nat (length s)) by (apply Z.div_lt_upper_bound; lia).
  assert (0 ≤ cpu / 64) by (apply Z.div_pos; lia).
  lia.
Qed.

Lemma IsSet_bit_of (s : CPUSet) cpu :
  len s * bitsperword < uint_modulus → 0 ≤ cpu → IsSet s cpu = bit_of s cpu.
Proof.
  intros Hlen H0. unfold IsSet, bit_of, setBitIndex.
  rewrite wrap_small by (unfold len in *; consts; lia).
  rewrite setBitMask_pow2. consts.
  assert (Hk : 0 ≤ cpu mod 64 < 64) by (apply Z.mod_pos_bound; lia).
  destruct (Z.leb_spec (len s * 64) cpu) as [Hge|Hlt].
  - rewrite lookup_ge_None_2; [reflexivity|].
    assert (len s ≤ cpu / 64) by (apply Z.div_le_lower_bound; lia).
    unfold len in *. lia.
  - destruct (s !! Z.to_nat (cpu / 64)); [|reflexivity].
    apply land_pow2_test. lia.
Qed.

Lemma bit_of_insert (s : CPUSet) i v c :
  0 ≤ c → (i < length s)%nat →
  bit_of (<[i := v]> s) c =
    if decide (Z.to_nat (c / 64) = i) then Z.testbit v (c mod 64) else bit_of s c.
Proof.
  intros Hc Hi. unfold bit_of. case_decide as E.
  - subst i. rewrite list_lookup_insert_eq by exact Hi. reflexivity.
  - rewrite list_lookup_insert_ne by congruence. reflexivity.
Qed.

(** ** AddRange *)

Lemma AddRange_loop_spec fuel : ∀ (set : CPUSet) cpu to,
  0 ≤ cpu → cpu ≤ to + 1 → to < uint_modulus - 1 → to / 64 < len set →
  to - cpu + 1 ≤ Z.of_nat fuel →
  ∃ set', AddRange_loop fuel set cpu to = Returns set' ∧
          length set' = length set ∧
          ∀ c, 0 ≤ c → bit_of set' c = bit_of set c || ((cpu <=? c) && (c <=? to)).
Proof.
  induction fuel as [|fuel IH]; intros set cpu to H0 Hle Hto Hlen Hfuel.
  - assert (cpu = to + 1) as -> by lia.
    exists set. simpl. rewrite (proj2 (Z.leb_gt _ _)) by lia.
    split; [reflexivity|]. split; [reflexivity|]. intros c Hc.
    replace ((to + 1 <=? c) && (c <=? to)) with false by lia.
    rewrite orb_false_r. reflexivity.
  - simpl. destruct (Z.leb_spec cpu to) as [Hin|Hout].
    + assert (Hidx : 0 ≤ cpu / 64 < len set).
      { split; [apply Z.div_pos; lia|].
        assert (cpu / 64 ≤ to / 64) by (apply Z.div_le_mono; lia). lia. }
      unfold setBitIndex. consts.
      destruct (lookup_lt_is_Some_2 set (Z.to_nat (cpu / 64))) as [w Hw].
      { unfold len in *. lia. }
      unfold word_at. rewrite Hw. simpl.
      rewrite wrap_small by (consts; lia).
      destruct (IH (<[Z.to_nat (cpu / 64) := Z.lor w (setBitMask cpu)]> set)
                   (cpu + 1) to) as (set' & Hrun & Hl & Hbits); try lia.
      { unfold len in *. rewrite length_insert. exact Hlen. }
      exists set'. split; [exact Hrun|]. split.
      { rewrite Hl. apply length_insert. }
      intros c Hc. rewrite Hbits by exact Hc.
      rewrite bit_of_insert by (unfold len in *; lia).
      rewrite setBitMask_pow2.
      assert (Hk : 0 ≤ cpu mod 64 < 64) by (apply Z.mod_pos_bound; lia).
      assert (Hk' : 0 ≤ c mod 64 < 64) by (apply Z.mod_pos_bound; lia).
      assert (0 ≤ c / 64) by (apply Z.div_pos; lia).
      case_decide as E.
      * rewrite Z.lor_spec, Z.pow2_bits_eqb by lia.
        assert (Hq : c / 64 = cpu / 64) by lia.
        unfold bit_of. rewrite E, Hw.
        destruct (Z.eqb_spec (cpu mod 64) (c mod 64)) as [Hr|Hr].
        -- assert (c = cpu) by (apply divmod_eq; auto; lia). subst c.
           replace (cpu <=? cpu) with true by lia.
           replace (cpu <=? to) with true by lia.
           rewrite !orb_true_r. reflexivity.
        -- assert (c ≠ cpu) by (intros ->; apply Hr; reflexivity).
           rewrite orb_false_r. f_equal. f_equal; lia.
      * assert (c ≠ cpu) by (intros ->; apply E; reflexivity).
        f_equal. f_equal; lia.
    + exists set. split; [reflexivity|]. split; [reflexivity|].
      intros c Hc. replace ((cpu <=? c) && (c <=? to)) with false by lia.
      rewrite orb_false_r. reflexivity.
Qed.

Lemma bit_of_app_zeros (s : CPUSet) m c : bit_of (s ++ replicate m 0) c = bit_of s c.
Proof.
  unfold bit_of.
  destruct (decide (Z.to_nat (c / 64) < length s)%nat) as [Hlt|Hge].
  - rewrite lookup_app_l by exact Hlt. reflexivity.
  - rewrite lookup_app_r by lia.
    rewrite (lookup_ge_None_2 s) by lia.
    destruct (replicate m 0 !! _) as [w|] eqn:E; [|reflexivity].
    apply lookup_replicate in E as [-> _]. apply Z.bits_0.
Qed.

(** What [make] and [copy] leave in [set] before the loop of [AddRange]. *)
Lemma AddRange_copied (s : CPUSet) n :
  len s ≤ n →
  copy (take (length s) (make n)) s ++ drop (length s) (make n)
  = s ++ replicate (Z.to_nat n - length s) 0.
Proof.
  intros Hn. unfold copy, make, len in *.
  rewrite length_take, length_replicate.
  rewrite Nat.min_l by lia.
  rewrite firstn_all, take_replicate, drop_replicate.
  rewrite Nat.min_l by lia.
  rewrite drop_replicate.
  replace (length s - length s)%nat with 0%nat by lia.
  simpl. rewrite app_nil_r. reflexivity.
Qed.

Lemma AddRange_len_wrap (s : CPUSet) to :
  0 ≤ to → to < uint_modulus - 1 → len s * bitsperword < uint_modulus →
  Z.max (wrap (to / bitsperword + 1)) (wrap (len s * bitsperword)) = AddRange_len s to.
Proof.
  intros H0 Hto Hlen. unfold AddRange_len.
  assert (0 ≤ to / bitsperword < uint_modulus - 1).
  { consts. split; [apply Z.div_pos; lia|].
    apply Z.div_lt_upper_bound; lia. }
  rewrite !wrap_small; [reflexivity| |]; unfold len in *; consts; lia.
Qed.

Lemma AddRange_spec (s : CPUSet) from to :
  0 ≤ from → from ≤ to → to < uint_modulus - 1 →
  len s * bitsperword < uint_modulus →
  ∃ set, AddRange s from to = Returns set ∧
         len set = AddRange_len s to ∧
         ∀ c, 0 ≤ c → bit_of set c = bit_of s c || ((from <=? c) && (c <=? to)).
Proof.
  intros H0 Hle Hto Hlen. unfold AddRange.
  rewrite gtb_le by lia.
  rewrite AddRange_len_wrap by lia.
  assert (Hn : len s ≤ AddRange_len s to ∧ to / 64 < AddRange_len s to).
  { unfold AddRange_len, len. consts. lia. }
  destruct Hn as [Hn1 Hn2].
  rewrite gtb_le by lia.
  rewrite AddRange_copied by exact Hn1.
  destruct (AddRange_loop_spec (Z.to_nat (to - from + 2))
              (s ++ replicate (Z.to_nat (AddRange_len s to) - length s) 0) from to)
    as (set & Hrun & Hl & Hbits); try lia.
  { unfold len in *. rewrite length_app, length_replicate. lia. }
  exists set. split; [exact Hrun|]. split.
  - unfold len in *. rewrite Hl, length_app, length_replicate. lia.
  - intros c Hc. rewrite Hbits by exact Hc. rewrite bit_of_app_zeros. reflexivity.
Qed.



(** C3.  The claim asks for [max(to/64+1, len(s))] words.  [AddRange]
    computes [max(to/bitsperword+1, uint(len(s))*bitsperword)]: the second
    operand counts bits, not words, so a receiver of one word comes back
    with sixty-four. *)
Theorem AddRange_length_counts_bits :
  ∃ set, AddRange [0] 0 0 = Returns set ∧
         len set = 64 ∧ Z.max (0 / 64 + 1) (len [0]) = 1.
Proof.
  eexists. split; [vm_compute; reflexivity|]. split; reflexivity.
Qed.

(** ** AddRange on the heap *)

Lemma heap_store_insert (h : gmap positive (list Z)) p n a i v :
  h !! p = Some a →
  heap_store h (Slice p 0 n n) i v = <[p := <[Z.to_nat i := v]> a]> h.
Proof.
  intros Hp. unfold heap_store. simpl. apply map_eq. intros q.
  destruct (decide (p = q)) as [->|Hne].
  - rewrite lookup_alter_eq, lookup_insert_eq, Hp. reflexivity.
  - rewrite lookup_alter_ne, lookup_insert_ne by exact Hne. reflexivity.
Qed.

(** The loop writes through the header [set] only: it is the loop on the
    words of the array behind [set], stored back. *)
Lemma AddRange_loop_heap_pure fuel : ∀ (h : gmap positive (list Z)) p a cpu to,
  0 ≤ cpu → h !! p = Some a →
  AddRange_loop_heap fuel h (Slice p 0 (length a) (length a)) cpu to
  = (a' ← AddRange_loop fuel a cpu to; Returns (<[p := a']> h)).
Proof.
  induction fuel as [|fuel IH]; intros h p a cpu to H0 Hp; simpl.
  - destruct (cpu <=? to); [reflexivity|].
    simpl. rewrite insert_id by exact Hp. reflexivity.
  - destruct (cpu <=? to); [|simpl; rewrite insert_id by exact Hp; reflexivity].
    assert (Hi : 0 ≤ setBitIndex cpu) by (unfold setBitIndex; consts; apply Z.div_pos; lia).
    unfold heap_load, word_at. simpl. rewrite Hp.
    rewrite (proj2 (Z.leb_le _ _) Hi). simpl.
    destruct (Z.ltb_spec (setBitIndex cpu) (Z.of_nat (length a))) as [Hlt|Hge].
    + destruct (lookup_lt_is_Some_2 a (Z.to_nat (setBitIndex cpu))) as [w Hw]; [lia|].
      rewrite Hw. simpl.
      rewrite (heap_store_insert h p (length a) a) by exact Hp.
      set (a1 := <[Z.to_nat (setBitIndex cpu) := Z.lor w (setBitMask cpu)]> a).
      assert (Hl : length a = length a1) by (unfold a1; rewrite length_insert; reflexivity).
      rewrite Hl.
      rewrite (IH (<[p := a1]> h) p a1).
      * destruct (AddRange_loop fuel a1 (wrap (cpu + 1)) to); simpl; try reflexivity.
        rewrite insert_insert_eq. reflexivity.
      * apply Z.mod_pos_bound. consts. lia.
      * apply lookup_insert_eq.
    + rewrite (lookup_ge_None_2 a) by lia. reflexivity.
Qed.

Lemma AddRange_loop_length fuel : ∀ (set set' : CPUSet) cpu to,
  AddRange_loop fuel set cpu to = Returns set' → length set' = length set.
Proof.
  induction fuel as [|fuel IH]; intros set set' cpu to; simpl.
  - destruct (cpu <=? to); [discriminate|]. intros [= <-]. reflexivity.
  - destruct (cpu <=? to); [|intros [= <-]; reflexivity].
    destruct (word_at set (setBitIndex cpu)) as [w| |]; simpl; try discriminate.
    intros Hrun. apply IH in Hrun. rewrite Hrun. apply length_insert.
Qed.

Lemma heap_words_Some (h : gmap positive (list Z)) s ws :
  heap_words h s = Some ws →
  slice_arr s ∈ dom h ∧ length ws = slice_len s.
Proof.
  unfold heap_words. destruct (h !! slice_arr s) as [a|] eqn:Ha; simpl; [|discriminate].
  case_decide as Hb; [|discriminate]. intros [= <-]. split.
  - apply elem_of_dom. eauto.
  - rewrite length_take, length_drop. lia.
Qed.

Lemma heap_words_frame (h h' : gmap positive (list Z)) s :
  h' !! slice_arr s = h !! slice_arr s → heap_words h' s = heap_words h s.
Proof. intros E. unfold heap_words. rewrite E. reflexivity. Qed.



(** ** Single *)

(** [el&(el-1) == 0] singles out the powers of two. *)
Lemma land_pred_pow2 k : 0 ≤ k → Z.land (2 ^ k) (2 ^ k - 1) = 0.
Proof.
  intros Hk. replace (2 ^ k - 1) with (Z.ones k) by (rewrite Z.ones_equiv; lia).
  rewrite Z.land_ones by exact Hk. apply Z.mod_same.
  assert (0 < 2 ^ k) by (apply Z.pow_pos_nonneg; lia). lia.
Qed.

Lemma land_pred_zero el : 0 < el → Z.land el (el - 1) = 0 → el = 2 ^ Z.log2 el.
Proof.
  intros Hpos Hland.
  destruct (Z.log2_spec el Hpos) as [Hlo Hhi].
  destruct (decide (el = 2 ^ Z.log2 el)) as [|Hne]; [assumption|exfalso].
  assert (Hk : 0 ≤ Z.log2 el) by apply Z.log2_nonneg.
  assert (Hlog : Z.log2 (el - 1) = Z.log2 el).
  { apply Z.log2_unique; [exact Hk|]. rewrite <- Z.add_1_r in *. lia. }
  assert (Hb : Z.testbit (Z.land el (el - 1)) (Z.log2 el) = true).
  { rewrite Z.land_spec, Z.bit_log2 by exact Hpos.
    rewrite <- Hlog. rewrite Z.bit_log2; [reflexivity|].
    assert (0 < 2 ^ Z.log2 el) by (apply Z.pow_pos_nonneg; lia). lia. }
  rewrite Hland, Z.bits_0 in Hb. discriminate.
Qed.

Lemma uint_log2 w : 0 < w < uint_modulus → 0 ≤ Z.log2 w < 64.
Proof.
  intros [Hpos Hhi]. split; [apply Z.log2_nonneg|].
  apply Z.log2_lt_pow2; [exact Hpos|]. exact Hhi.
Qed.

Lemma pow2_uint k : 0 ≤ k < 64 → 0 < 2 ^ k < uint_modulus.
Proof.
  intros Hk. split; [apply Z.pow_pos_nonneg; lia|].
  unfold uint_modulus. apply Z.pow_lt_mono_r; lia.
Qed.

Lemma Single_rest_zeros (rest : CPUSet) :
  Single_rest rest = true ↔ rest = replicate (length rest) 0.
Proof.
  induction rest as [|w rest IH]; simpl; [tauto|].
  destruct (Z.eqb_spec w 0) as [->|Hne]; simpl.
  - rewrite IH. split; [intros <-; reflexivity | intros [= E]; exact E].
  - split; [discriminate | intros [= E _]; contradiction].
Qed.

(** The lists with exactly one bit set: zero words, a power of two, zero
    words. *)
Lemma Single_loop_spec (rest : CPUSet) : ∀ idx,
  Forall is_uint rest → 0 ≤ idx → (idx + len rest) * 64 < uint_modulus →
  (∃ (j m : nat) k, 0 ≤ k < 64 ∧ rest = replicate j 0 ++ 2 ^ k :: replicate m 0 ∧
     Single_loop rest idx = (64 * (idx + Z.of_nat j) + k, true))
  ∨ ((¬ ∃ (j m : nat) k, 0 ≤ k < 64 ∧ rest = replicate j 0 ++ 2 ^ k :: replicate m 0) ∧
     Single_loop rest idx = (0, false)).
Proof.
  induction rest as [|el rest IH]; intros idx Hwf Hidx Hlen.
  - right. split; [|reflexivity]. intros (j & m & k & _ & E).
    destruct j; discriminate.
  - apply Forall_cons in Hwf as [Hel Hwf].
    unfold len in *. simpl length in Hlen. simpl Single_loop.
    destruct (Z.eqb_spec el 0) as [->|Hne]; simpl negb; cbv iota.
    + destruct (IH (idx + 1) Hwf) as [(j & m & k & Hk & -> & Hrun)|[Hno Hrun]]; try lia.
      * left. exists (S j), m, k. split; [exact Hk|]. split; [reflexivity|].
        rewrite Hrun. f_equal. lia.
      * right. split; [|exact Hrun]. intros (j & m & k & Hk & E).
        destruct j as [|j]; simpl in E.
        -- injection E as E _. destruct (pow2_uint k Hk). lia.
        -- injection E as E. apply Hno. eauto 6.
    + assert (Hpos : 0 < el < uint_modulus) by (unfold is_uint in Hel; lia).
      rewrite wrap_small by lia. simpl orb.
      destruct (Z.eqb_spec (Z.land el (el - 1)) 0) as [Hz|Hnz]; simpl negb; cbv iota.
      * pose proof (land_pred_zero el (proj1 Hpos) Hz) as Hel2.
        pose proof (uint_log2 el Hpos) as Hk.
        unfold Len64. rewrite (proj2 (Z.eqb_neq _ _) Hne).
        rewrite wrap_small by (consts; lia).
        destruct (Single_rest rest) eqn:Hrest.
        -- left. exists 0%nat, (length rest), (Z.log2 el). split; [exact Hk|]. split.
           ++ simpl. rewrite <- Hel2. f_equal. apply Single_rest_zeros. exact Hrest.
           ++ f_equal. lia.
        -- right. split; [|reflexivity]. intros (j & m & k & Hk' & E).
           destruct j as [|j]; simpl in E; injection E as E1 E2.
           ++ assert (Single_rest rest = true); [|congruence].
              apply Single_rest_zeros. rewrite E2, length_replicate. reflexivity.
           ++ lia.
      * right. split; [|reflexivity]. intros (j & m & k & Hk' & E).
        destruct j as [|j]; simpl in E; injection E as E1 E2.
        -- apply Hnz. rewrite E1. apply land_pred_pow2. lia.
        -- lia.
Qed.

Lemma divmod_at i b : 0 ≤ b < 64 → (64 * i + b) / 64 = i ∧ (64 * i + b) mod 64 = b.
Proof.
  intros Hb. split.
  - rewrite Z.mul_comm, Z.div_add_l by lia. rewrite Z.div_small by lia. lia.
  - rewrite Z.mul_comm, Z.add_comm, Z.mod_add by lia. apply Z.mod_small. lia.
Qed.

Lemma bit_of_lookup (s : CPUSet) (i : nat) w b :
  s !! i = Some w → 0 ≤ b < 64 → bit_of s (64 * Z.of_nat i + b) = Z.testbit w b.
Proof.
  intros Hw Hb. unfold bit_of.
  destruct (divmod_at (Z.of_nat i) b Hb) as [-> ->].
  rewrite Nat2Z.id, Hw. reflexivity.
Qed.

Lemma bit_of_true (s : CPUSet) c :
  0 ≤ c → bit_of s c = true →
  ∃ w, s !! Z.to_nat (c / 64) = Some w ∧ Z.testbit w (c mod 64) = true.
Proof.
  intros Hc. unfold bit_of. destruct (s !! Z.to_nat (c / 64)) as [w|]; [eauto|discriminate].
Qed.

Lemma uint_no_bits w :
  is_uint w → (∀ b, 0 ≤ b < 64 → Z.testbit w b = false) → w = 0.
Proof.
  intros Hw Hbits. destruct (decide (w = 0)) as [|Hne]; [assumption|exfalso].
  assert (Hpos : 0 < w < uint_modulus) by (unfold is_uint in Hw; lia).
  pose proof (uint_log2 w Hpos) as Hk.
  pose proof (Z.bit_log2 w (proj1 Hpos)) as Hset.
  rewrite Hbits in Hset by exact Hk. discriminate.
Qed.

Lemma uint_one_bit w k :
  is_uint w → 0 ≤ k < 64 →
  (∀ b, 0 ≤ b < 64 → Z.testbit w b = true ↔ b = k) → w = 2 ^ k.
Proof.
  intros Hw Hk Hbits. apply Z.bits_inj'. intros n Hn.
  rewrite Z.pow2_bits_eqb by lia.
  destruct (decide (n < 64)) as [Hlt|Hge].
  - destruct (Z.eqb_spec k n) as [->|Hne].
    + apply Hbits; [lia|reflexivity].
    + destruct (Z.testbit w n) eqn:E; [|reflexivity].
      apply Hbits in E; [|lia]. congruence.
  - replace (k =? n) with false by lia.
    destruct (decide (w = 0)) as [->|Hne]; [apply Z.bits_0|].
    apply Z.bits_above_log2; [unfold is_uint in Hw; lia|].
    assert (0 ≤ Z.log2 w < 64) by (apply uint_log2; unfold is_uint in Hw; lia). lia.
Qed.

Lemma one_bit_members (j m : nat) k c :
  0 ≤ k < 64 → 0 ≤ c →
  bit_of (replicate j 0 ++ 2 ^ k :: replicate m 0) c = true ↔ c = 64 * Z.of_nat j + k.
Proof.
  intros Hk Hc.
  assert (Hq : 0 ≤ c / 64) by (apply Z.div_pos; lia).
  assert (Hr : 0 ≤ c mod 64 < 64) by (apply Z.mod_pos_bound; lia).
  pose proof (Z.div_mod c 64 ltac:(lia)) as Hdm.
  unfold bit_of.
  destruct (lt_eq_lt_dec (Z.to_nat (c / 64)) j) as [[Hlt|Heq]|Hgt].
  - rewrite lookup_app_l by (rewrite length_replicate; exact Hlt).
    rewrite lookup_replicate_2 by exact Hlt. rewrite Z.bits_0.
    split; [discriminate|]. intros E. rewrite E in Hlt.
    destruct (divmod_at (Z.of_nat j) k Hk) as [E1 _]. rewrite E1 in Hlt. lia.
  - rewrite Heq. rewrite list_lookup_middle by (rewrite length_replicate; reflexivity).
    rewrite Z.pow2_bits_eqb, Z.eqb_eq by lia. lia.
  - rewrite lookup_app_r by (rewrite length_replicate; lia).
    rewrite length_replicate.
    destruct (Z.to_nat (c / 64) - j)%nat as [|n] eqn:En; [lia|]. simpl.
    assert (Hne : c ≠ 64 * Z.of_nat j + k).
    { intros E. rewrite E in Hgt.
      destruct (divmod_at (Z.of_nat j) k Hk) as [E1 _]. rewrite E1 in Hgt. lia. }
    destruct (replicate m 0 !! n) as [w|] eqn:E.
    + apply lookup_replicate in E as [-> _]. rewrite Z.bits_0. split; [discriminate|tauto].
    + split; [discriminate|tauto].
Qed.

Lemma sole_member_shape (s : CPUSet) cpu :
  Forall is_uint s → 0 ≤ cpu →
  (∀ c, 0 ≤ c → bit_of s c = true ↔ c = cpu) →
  ∃ (j m : nat) k, 0 ≤ k < 64 ∧ s = replicate j 0 ++ 2 ^ k :: replicate m 0.
Proof.
  intros Hwf Hcpu Hsole.
  assert (Hq : 0 ≤ cpu / 64) by (apply Z.div_pos; lia).
  assert (Hk : 0 ≤ cpu mod 64 < 64) by (apply Z.mod_pos_bound; lia).
  pose proof (Z.div_mod cpu 64 ltac:(lia)) as Hdm.
  destruct (bit_of_true s cpu Hcpu) as (w & Hw & Hwk); [apply Hsole; auto|].
  set (j := Z.to_nat (cpu / 64)) in *.
  pose proof (lookup_lt_Some _ _ _ Hw) as Hj.
  assert (Hother : ∀ (i : nat) w', s !! i = Some w' → i ≠ j → w' = 0).
  { intros i w' Hw' Hne. apply uint_no_bits.
    - eapply Forall_lookup_1; eauto.
    - intros b Hb. destruct (Z.testbit w' b) eqn:E; [exfalso|reflexivity].
      rewrite <- (bit_of_lookup s i w' b Hw' Hb) in E.
      apply Hsole in E; [|lia].
      destruct (divmod_at (Z.of_nat i) b Hb) as [E1 _]. rewrite E in E1.
      apply Hne. unfold j. lia. }
  assert (Hthis : w = 2 ^ (cpu mod 64)).
  { apply uint_one_bit; [eapply Forall_lookup_1; eauto|exact Hk|].
    intros b Hb. rewrite <- (bit_of_lookup s j w b Hw Hb).
    rewrite Hsole by lia. unfold j. rewrite Z2Nat.id by exact Hq. lia. }
  exists j, (length s - j - 1)%nat, (cpu mod 64). split; [exact Hk|].
  apply list_eq. intros i.
  destruct (lt_eq_lt_dec i j) as [[Hlt|Heq]|Hgt].
  - rewrite lookup_app_l by (rewrite length_replicate; exact Hlt).
    rewrite lookup_replicate_2 by exact Hlt.
    destruct (lookup_lt_is_Some_2 s i) as [w' Hw']; [lia|].
    rewrite Hw'. f_equal. apply (Hother i); [exact Hw'|lia].
  - subst i. rewrite list_lookup_middle by (rewrite length_replicate; reflexivity).
    rewrite Hw, Hthis. reflexivity.
  - rewrite lookup_app_r by (rewrite length_replicate; lia).
    rewrite length_replicate.
    destruct (i - j)%nat as [|n] eqn:En; [lia|]. simpl.
    destruct (decide (i < length s)%nat) as [Hin|Hout].
    + destruct (lookup_lt_is_Some_2 s i Hin) as [w' Hw'].
      rewrite Hw', lookup_replicate_2 by lia.
      f_equal. apply (Hother i); [exact Hw'|lia].
    + rewrite lookup_ge_None_2 by lia.
      symmetry. apply lookup_ge_None_2. rewrite length_replicate. lia.
Qed.

Lemma Single_unfold (s : CPUSet) : Single s = Single_loop s 0.
Proof. unfold Single, len. destruct s; reflexivity. Qed.

Lemma Single_cases (s : CPUSet) :
  wf_Set s →
  (∃ cpu, sole_member s cpu ∧ Single s = (cpu, true))
  ∨ ((∀ cpu, ¬ sole_member s cpu) ∧ Single s = (0, false)).
Proof.
  intros [Hwf Hlen]. rewrite Single_unfold.
  destruct (Single_loop_spec s 0 Hwf) as [(j & m & k & Hk & Hs & Hrun)|[Hno Hrun]];
    [lia|consts; lia| |].
  - left. exists (64 * (0 + Z.of_nat j) + k). split; [|exact Hrun].
    split; [lia|]. intros c Hc. rewrite IsSet_bit_of by assumption.
    rewrite Hs, one_bit_members by assumption. lia.
  - right. split; [|exact Hrun]. intros cpu [Hcpu Hsole]. apply Hno.
    apply (sole_member_shape s cpu Hwf Hcpu).
    intros c Hc. rewrite <- IsSet_bit_of by assumption. apply Hsole, Hc.
Qed.

Lemma sole_member_unique (s : CPUSet) c1 c2 :
  sole_member s c1 → sole_member s c2 → c1 = c2.
Proof.
  intros [H1 Hs1] [H2 Hs2]. apply Hs2; [exact H1|]. apply Hs1; [exact H1|reflexivity].
Qed.

(** C6.  [Single] returns [(cpu, true)] exactly when [cpu] is the one member
    of the set, whatever all-zero words surround its word, and [(0, false)]
    when the set has no member or more than one. *)
Theorem Single_sole_member (s : CPUSet) :
  wf_Set s →
  (∀ cpu, Single s = (cpu, true) ↔ sole_member s cpu) ∧
  ((∀ cpu, ¬ sole_member s cpu) → Single s = (0, false)) ∧
  (∀ m, wf_Set (s ++ replicate m 0) → Single (s ++ replicate m 0) = Single s).
Proof.
  intros Hwf. split; [|split].
  - intros cpu. destruct (Single_cases s Hwf) as [(c0 & Hsole & Hrun)|[Hno Hrun]].
    + rewrite Hrun. split.
      * intros [= <-]. exact Hsole.
      * intros Hcpu. f_equal. eapply sole_member_unique; eauto.
    + rewrite Hrun. split; [discriminate|]. intros Hcpu. destruct (Hno cpu Hcpu).
  - intros Hno. destruct (Single_cases s Hwf) as [(c0 & Hsole & _)|[_ Hrun]].
    + destruct (Hno c0 Hsole).
    + exact Hrun.
  - intros m Hwf'.
    assert (Hsame : ∀ cpu, sole_member (s ++ replicate m 0) cpu ↔ sole_member s cpu).
    { intros cpu. unfold sole_member.
      assert (E : ∀ c, 0 ≤ c → IsSet (s ++ replicate m 0) c = IsSet s c).
      { intros c Hc. rewrite !IsSet_bit_of by (try apply Hwf; try apply Hwf'; exact Hc).
        apply bit_of_app_zeros. }
      split; intros [H0 Hs]; (split; [exact H0|]); intros c Hc;
        [rewrite <- E by exact Hc|rewrite E by exact Hc]; apply Hs, Hc. }
    destruct (Single_cases s Hwf) as [(c0 & Hsole & Hrun)|[Hno Hrun]];
      destruct (Single_cases _ Hwf') as [(c1 & Hsole' & Hrun')|[Hno' Hrun']];
      rewrite Hrun, Hrun'.
    + f_equal. apply Hsame in Hsole'. eapply sole_member_unique; eauto.
    + apply Hsame in Hsole. destruct (Hno' c0 Hsole).
    + apply Hsame in Hsole'. destruct (Hno c1 Hsole').
    + reflexivity.
Qed.

Lemma Single_sole_member_witness :
  (∀ cpu, Single [0; 2 ^ 59; 0; 0] = (cpu, true) ↔ sole_member [0; 2 ^ 59; 0; 0] cpu) ∧
  ((∀ cpu, ¬ sole_member [0; 2 ^ 59; 0; 0] cpu) → Single [0; 2 ^ 59; 0; 0] = (0, false)) ∧
  (∀ m, wf_Set ([0; 2 ^ 59; 0; 0] ++ replicate m 0) →
        Single ([0; 2 ^ 59; 0; 0] ++ replicate m 0) = Single [0; 2 ^ 59; 0; 0]).
Proof.
  apply (Single_sole_member [0; 2 ^ 59; 0; 0]).
  split; [repeat constructor; consts; lia | vm_compute; reflexivity].
Defined.

(** ** Range lists *)

Lemma ranges_from_weaken gap lo lo' (l : CPUList) :
  lo' ≤ lo → ranges_from gap lo l → ranges_from gap lo' l.
Proof. destruct l as [|r l]; simpl; [tauto|]. intros Hlo (H1 & H2); split; [lia|exact H2]. Qed.

Lemma ranges_from_lower gap lo (l : CPUList) c :
  0 ≤ gap → ranges_from gap lo l → covers l c → lo ≤ c.
Proof.
  intros Hgap. revert lo. induction l as [|r l IH]; intros lo Hl Hc.
  - inversion Hc.
  - simpl in Hl. destruct Hl as (H1 & H2 & H3 & Hl).
    apply Exists_cons in Hc as [Hc|Hc].
    + unfold in_range in Hc. lia.
    + specialize (IH _ Hl Hc). lia.
Qed.

Lemma covers_cons r (l : CPUList) c : covers (r :: l) c ↔ in_range c r ∨ covers l c.
Proof. apply Exists_cons. Qed.

(** *** Remove *)

(** C7.  On a non-empty canonical list, [Remove] returns the lowest CPU of
    the list and the list without it: the lowest range with its lower bound
    moved up by one, or dropped when it was a singleton.  On the empty list
    it panics. *)
Theorem List_Remove_lowest (l : CPUList) :
  canonical l →
  (l = [] → List_Remove l = Panics) ∧
  (l ≠ [] →
   ∃ from to rest remaining,
     l = (from, to) :: rest ∧
     List_Remove l = Returns (from, remaining) ∧
     covers l from ∧ (∀ c, covers l c → from ≤ c) ∧
     (from < to → remaining = (from + 1, to) :: rest) ∧
     (from = to → remaining = rest) ∧
     canonical remaining ∧
     (∀ c, covers remaining c ↔ covers l c ∧ c ≠ from)) ∧
  List_Remove [(1, 3)] = Returns (1, [(2, 3)]) ∧
  List_Remove [(5, 5)] = Returns (5, []).
Proof.
  intros Hcan. split; [intros ->; reflexivity|].
  split; [|split; reflexivity].
  intros Hne. destruct l as [|[from to] rest]; [contradiction|].
  unfold canonical in Hcan. simpl in Hcan. destruct Hcan as (H0 & Hle & Hto & Hrest).
  assert (Hlow : ∀ c, covers rest c → to + 1 ≤ c).
  { intros c. apply (ranges_from_lower 1); [lia|exact Hrest]. }
  assert (Hmin : ∀ c, covers ((from, to) :: rest) c → from ≤ c).
  { intros c [Hc|Hc]%covers_cons; [unfold in_range in Hc; simpl in Hc; lia|].
    apply Hlow in Hc. lia. }
  assert (Hmem : covers ((from, to) :: rest) from).
  { apply covers_cons. left. unfold in_range. simpl. lia. }
  unfold List_Remove. simpl fst. simpl snd.
  destruct (Z.ltb_spec from to) as [Hlt|Hge].
  - rewrite wrap_small by lia.
    exists from, to, rest, ((from + 1, to) :: rest).
    split_and!; try assumption; try reflexivity; try lia.
    + unfold canonical. simpl. split_and!; try lia.
      apply (ranges_from_weaken 1 (to + 1)); [lia|exact Hrest].
    + intros c. rewrite !covers_cons. unfold in_range. simpl. split.
      * intros [Hc|Hc]; [lia|]. pose proof (Hlow c Hc). split; [right; exact Hc|lia].
      * intros [[Hc|Hc] Hnf]; [left; lia|right; exact Hc].
  - assert (from = to) as -> by lia.
    exists to, to, rest, rest.
    split_and!; try assumption; try reflexivity; try lia.
    + apply (ranges_from_weaken 1 (to + 1)); [lia|exact Hrest].
    + intros c. rewrite !covers_cons. unfold in_range. simpl. split.
      * intros Hc. pose proof (Hlow c Hc). split; [right; exact Hc|lia].
      * intros [[Hc|Hc] Hnf]; [lia|exact Hc].
Qed.

Lemma List_Remove_lowest_witness :
  ([(1, 3); (7, 9)] = [] → List_Remove [(1, 3); (7, 9)] = Panics) ∧
  ([(1, 3); (7, 9)] ≠ [] →
   ∃ from to rest remaining,
     [(1, 3); (7, 9)] = (from, to) :: rest ∧
     List_Remove [(1, 3); (7, 9)] = Returns (from, remaining) ∧
     covers [(1, 3); (7, 9)] from ∧ (∀ c, covers [(1, 3); (7, 9)] c → from ≤ c) ∧
     (from < to → remaining = (from + 1, to) :: rest) ∧
     (from = to → remaining = rest) ∧
     canonical remaining ∧
     (∀ c, covers remaining c ↔ covers [(1, 3); (7, 9)] c ∧ c ≠ from)) ∧
  List_Remove [(1, 3)] = Returns (1, [(2, 3)]) ∧
  List_Remove [(5, 5)] = Returns (5, []).
Proof.
  apply (List_Remove_lowest [(1, 3); (7, 9)]).
  unfold canonical. simpl. consts. lia.
Defined.

(** *** Overlap and IsOverlapping *)

Lemma List_Overlap_loop_nil_r (l acc : CPUList) : List_Overlap_loop l [] acc = acc.
Proof. destruct l; reflexivity. Qed.

Lemma List_Overlap_loop_cons r1 (l' : CPUList) r2 another' acc :
  List_Overlap_loop (r1 :: l') (r2 :: another') acc =
    let acc' :=
      if (r2.1 <=? r1.2) && (r1.1 <=? r2.2)
      then acc ++ [(Z.max r1.1 r2.1, Z.min r1.2 r2.2)]
      else acc in
    if r2.2 >? r1.2 then List_Overlap_loop l' (r2 :: another') acc'
    else List_Overlap_loop (r1 :: l') another' acc'.
Proof. reflexivity. Qed.

Lemma List_IsOverlapping_nil_r (l : CPUList) : List_IsOverlapping l [] = false.
Proof. destruct l; reflexivity. Qed.

Lemma List_IsOverlapping_cons r1 (l' : CPUList) r2 another' :
  List_IsOverlapping (r1 :: l') (r2 :: another') =
    if (r2.1 <=? r1.2) && (r1.1 <=? r2.2) then true
    else if r2.1 >? r1.2 then List_IsOverlapping l' (r2 :: another')
    else List_IsOverlapping (r1 :: l') another'.
Proof. reflexivity. Qed.

(** The overlaps found so far are only ever appended to. *)
Lemma List_Overlap_loop_acc (l : CPUList) : ∀ another acc,
  List_Overlap_loop l another acc = acc ++ List_Overlap_loop l another [].
Proof.
  induction l as [|r1 l' IHl]; intros another acc.
  - simpl. rewrite app_nil_r. reflexivity.
  - revert acc. induction another as [|r2 another' IHa]; intros acc.
    + rewrite !List_Overlap_loop_nil_r, app_nil_r. reflexivity.
    + rewrite !List_Overlap_loop_cons. cbv zeta.
      destruct ((r2.1 <=? r1.2) && (r1.1 <=? r2.2)); destruct (r2.2 >? r1.2); simpl app.
      * rewrite IHl, (IHl _ [_]), app_assoc. reflexivity.
      * rewrite IHa, (IHa [_]), app_assoc. reflexivity.
      * apply IHl.
      * apply IHa.
Qed.

(** A range that ends below everything in [b] contributes nothing. *)
Lemma List_Overlap_loop_skip r1 (a' b : CPUList) lo :
  r1.2 < lo → ranges_from 1 lo b →
  List_Overlap_loop (r1 :: a') b [] = List_Overlap_loop a' b [].
Proof.
  intros Hlo Hb. destruct b as [|r2 b'].
  - rewrite !List_Overlap_loop_nil_r. reflexivity.
  - simpl in Hb. destruct Hb as (H1 & H2 & _).
    rewrite List_Overlap_loop_cons. cbv zeta.
    replace (r2.1 <=? r1.2) with false by lia. simpl andb. cbv iota.
    rewrite gtb_gt by lia. reflexivity.
Qed.

Lemma List_Overlap_comm_aux (n : nat) : ∀ (a b : CPUList) la lb,
  (length a + length b ≤ n)%nat → ranges_from 1 la a → ranges_from 1 lb b →
  List_Overlap_loop a b [] = List_Overlap_loop b a [].
Proof.
  induction n as [|n IH]; intros a b la lb Hn Ha Hb.
  - destruct a; [|simpl in Hn; lia]. destruct b; [|simpl in Hn; lia]. reflexivity.
  - destruct a as [|r1 a']; [rewrite List_Overlap_loop_nil_r; reflexivity|].
    destruct b as [|r2 b']; [rewrite List_Overlap_loop_nil_r; reflexivity|].
    pose proof Ha as Ha0. pose proof Hb as Hb0.
    simpl in Ha, Hb, Hn.
    destruct Ha as (Ha1 & Ha2 & Ha3 & Ha'), Hb as (Hb1 & Hb2 & Hb3 & Hb').
    rewrite !List_Overlap_loop_cons. cbv zeta.
    rewrite (andb_comm (r1.1 <=? r2.2)), (Z.max_comm r2.1), (Z.min_comm r2.2).
    set (acc := if (r2.1 <=? r1.2) && (r1.1 <=? r2.2)
                then [] ++ [(Z.max r1.1 r2.1, Z.min r1.2 r2.2)] else []).
    destruct (Z.lt_trichotomy r1.2 r2.2) as [Hlt|[Heq|Hgt]].
    + rewrite (gtb_gt r2.2) by lia. rewrite (gtb_le r1.2) by lia.
      rewrite List_Overlap_loop_acc, (List_Overlap_loop_acc _ a'). f_equal.
      apply (IH _ _ (r1.2 + 1) lb); [simpl; lia|exact Ha'|exact Hb0].
    + rewrite (gtb_le r2.2) by lia. rewrite (gtb_le r1.2) by lia.
      rewrite List_Overlap_loop_acc, (List_Overlap_loop_acc _ a'). f_equal.
      rewrite (List_Overlap_loop_skip r1 a' b' (r2.2 + 1)) by (try lia; exact Hb').
      rewrite (List_Overlap_loop_skip r2 b' a' (r1.2 + 1)) by (try lia; exact Ha').
      apply (IH _ _ (r1.2 + 1) (r2.2 + 1)); [lia|exact Ha'|exact Hb'].
    + rewrite (gtb_le r2.2) by lia. rewrite (gtb_gt r1.2) by lia.
      rewrite List_Overlap_loop_acc, (List_Overlap_loop_acc _ (r1 :: a')). f_equal.
      apply (IH _ _ la (r2.2 + 1)); [simpl; lia|exact Ha0|exact Hb'].
Qed.

Lemma List_IsOverlapping_aux (n : nat) : ∀ (a b : CPUList) la lb,
  (length a + length b ≤ n)%nat → ranges_from 1 la a → ranges_from 1 lb b →
  List_IsOverlapping a b = true ↔ List_Overlap_loop a b [] ≠ [].
Proof.
  induction n as [|n IH]; intros a b la lb Hn Ha Hb.
  - destruct a; [|simpl in Hn; lia]. destruct b; [|simpl in Hn; lia].
    simpl. split; [discriminate|congruence].
  - destruct a as [|r1 a']; [simpl; split; [discriminate|congruence]|].
    destruct b as [|r2 b'].
    { rewrite List_IsOverlapping_nil_r, List_Overlap_loop_nil_r.
      split; [discriminate|congruence]. }
    pose proof Ha as Ha0. pose proof Hb as Hb0.
    simpl in Ha, Hb, Hn.
    destruct Ha as (Ha1 & Ha2 & Ha3 & Ha'), Hb as (Hb1 & Hb2 & Hb3 & Hb').
    rewrite List_IsOverlapping_cons, List_Overlap_loop_cons. cbv zeta.
    destruct ((r2.1 <=? r1.2) && (r1.1 <=? r2.2)) eqn:Hov.
    + split; [intros _|reflexivity].
      destruct (r2.2 >? r1.2); rewrite List_Overlap_loop_acc; simpl; discriminate.
    + apply andb_false_iff in Hov.
      destruct (Z.ltb_spec r1.2 r2.1) as [Hbelow|Hnot].
      * rewrite (gtb_gt r2.1), (gtb_gt r2.2) by lia.
        apply (IH _ _ (r1.2 + 1) lb); [simpl; lia|exact Ha'|exact Hb0].
      * assert (r2.2 < r1.1) by (destruct Hov as [Hov|Hov]; lia).
        rewrite (gtb_le r2.1), (gtb_le r2.2) by lia.
        apply (IH _ _ la (r2.2 + 1)); [simpl; lia|exact Ha0|exact Hb'].
Qed.

(** C5.  On canonical lists [Overlap] is commutative, and [IsOverlapping]
    answers whether [Overlap] finds anything. *)
Theorem List_Overlap_commutes (a b : CPUList) :
  canonical a → canonical b →
  List_Overlap a b = List_Overlap b a ∧
  List_IsOverlapping a b = bool_decide (0 < len (List_Overlap a b)).
Proof.
  intros Ha Hb. split.
  - apply (List_Overlap_comm_aux (length a + length b) a b 0 0); [lia|exact Ha|exact Hb].
  - pose proof (List_IsOverlapping_aux (length a + length b) a b 0 0
                  ltac:(lia) Ha Hb) as Hiff.
    fold (List_Overlap a b) in Hiff.
    destruct (List_Overlap a b) as [|r rs] eqn:E.
    + rewrite bool_decide_false by (unfold len; simpl; lia).
      destruct (List_IsOverlapping a b); [|reflexivity].
      destruct (proj1 Hiff eq_refl). reflexivity.
    + rewrite bool_decide_true by (unfold len; simpl; lia).
      apply Hiff. discriminate.
Qed.

Lemma List_Overlap_commutes_witness :
  List_Overlap [(1, 1); (7, 7); (19, 19)] [(3, 5); (6, 8)]
  = List_Overlap [(3, 5); (6, 8)] [(1, 1); (7, 7); (19, 19)] ∧
  List_IsOverlapping [(1, 1); (7, 7); (19, 19)] [(3, 5); (6, 8)]
  = bool_decide (0 < len (List_Overlap [(1, 1); (7, 7); (19, 19)] [(3, 5); (6, 8)])).
Proof.
  apply (List_Overlap_commutes [(1, 1); (7, 7); (19, 19)] [(3, 5); (6, 8)]).
  - unfold canonical. simpl. consts. lia.
  - unfold canonical. simpl. consts. lia.
Defined.

(** ** SetAffinity *)

Lemma empty_Set_zero_word : empty_Set [0].
Proof.
  intros c Hc. unfold IsSet. simpl.
  destruct (_ <=? c); [reflexivity|].
  destruct (Z.to_nat (setBitIndex c)) as [|n]; [|reflexivity].
  reflexivity.
Qed.

(** C8 as stated fails: the one-word set [{0}] has no member, and the package
    calls it empty, yet [SetAffinity] hands it to the kernel whatever the
    kernel then answers. *)
Lemma SetAffinity_empty_mask_reaches_kernel :
  empty_Set [0] ∧
  ∀ os, (SetAffinity os 0 [0]).1 = [RawCall SYS_SCHED_SETAFFINITY 0 8 [0]].
Proof. split; [exact empty_Set_zero_word|]. intros os. reflexivity. Qed.

(** C8, amended.  [SetAffinity] refuses a mask of length zero with [EINVAL]
    and issues no call; a mask of at least one word goes to the kernel in
    one call, as given, and the kernel's errno is the error returned. *)
Theorem SetAffinity_rejects_zero_length (os : rawcall → Z) (tid : Z) (cpus : CPUSet) :
  (cpus = [] → SetAffinity os tid cpus = ([], Some EINVAL)) ∧
  (cpus ≠ [] →
   let call := RawCall SYS_SCHED_SETAFFINITY tid (wrap (len cpus * wordbytesize)) cpus in
   (SetAffinity os tid cpus).1 = [call] ∧
   (os call = 0 → (SetAffinity os tid cpus).2 = None) ∧
   (os call ≠ 0 → (SetAffinity os tid cpus).2 = Some (os call))).
Proof.
  split.
  - intros ->. reflexivity.
  - intros Hne. unfold SetAffinity.
    assert ((len cpus =? 0) = false) as ->.
    { apply Z.eqb_neq. unfold len. destruct cpus; [contradiction|simpl; lia]. }
    cbv zeta. simpl. split; [reflexivity|]. split; intros Hos.
    + rewrite Hos. reflexivity.
    + rewrite (proj2 (Z.eqb_neq _ _) Hos). reflexivity.
Qed.

(** ** The size cache of Affinity *)

Lemma word_count_double sl :
  word_count sl → wrap (sl * 2) = 0 ∨ (word_count (wrap (sl * 2)) ∧ sl ≤ wrap (sl * 2)).
Proof.
  intros (a & Ha & ->).
  destruct (decide (a = 63)) as [->|Hne].
  - left. reflexivity.
  - right. assert (E : 2 ^ a * 2 = 2 ^ (a + 1)) by (rewrite Z.pow_add_r; lia).
    rewrite E. destruct (pow2_uint (a + 1)) as [Hpos Hlt]; [lia|].
    rewrite wrap_small by lia. split.
    + exists (a + 1). split; [lia|reflexivity].
    + rewrite <- E. destruct (pow2_uint a Ha). lia.
Qed.

Lemma task_step_ok c t c' t' :
  word_count c → task_ok t → task_step c t c' t' →
  word_count c' ∧ task_ok t' ∧ c ≤ c'.
Proof.
  intros Hc Ht Hstep. destruct Hstep; simpl in *; (split; [|split]);
    try assumption; try exact I; try lia.
  - right. split; [assumption|lia].
  - destruct Ht as [?|[Hsl Hst]]; [contradiction|].
    destruct (word_count_double sl Hsl) as [Hz|[Hw Hle]]; [left; exact Hz|right].
    split; [exact Hw|lia].
  - destruct Ht as [?|Ht]; [contradiction|exact Ht].
  - apply Ht.
  - apply Ht.
  - split; assumption.
Qed.

Lemma step_ok cfg cfg' :
  config_ok cfg → step cfg cfg' → config_ok cfg' ∧ setsize cfg ≤ setsize cfg'.
Proof.
  intros [Hc Hts] Hstep. destruct Hstep as [c ts|c c' ts i t t' Hi Ht]; simpl in *.
  - split; [|lia]. split; [exact Hc|]. simpl.
    apply Forall_app. split; [exact Hts|]. repeat constructor.
  - destruct (task_step_ok c t c' t' Hc) as (Hc' & Ht' & Hle); [|exact Ht|].
    { eapply Forall_lookup_1; eauto. }
    split; [|exact Hle]. split; [exact Hc'|]. simpl.
    apply Forall_insert; assumption.
Qed.

Lemma init_ok : config_ok init.
Proof. split; [exists 0; split; [lia|reflexivity]|constructor]. Qed.

Lemma run_ok cfg cfg' : rtc step cfg cfg' → config_ok cfg → config_ok cfg'.
Proof.
  induction 1 as [cfg|cfg mid cfg' Hstep _ IH]; intros Hok; [exact Hok|].
  apply IH. apply (step_ok cfg mid Hok Hstep).
Qed.

Lemma reachable_ok cfg : rtc step init cfg → config_ok cfg.
Proof. intros Hrun. apply (run_ok init cfg Hrun init_ok). Qed.

(** C9.  From the initial state, along any interleaving of any number of
    calls of [Affinity], the cached size never goes down: whoever reads
    [setsize] at some moment and again later reads a value at least as
    large. *)
Theorem setsize_never_decreases (cfg cfg' : config) :
  rtc step init cfg → rtc step cfg cfg' → setsize cfg ≤ setsize cfg'.
Proof.
  intros Hreach Hrun. apply reachable_ok in Hreach.
  induction Hrun as [cfg|cfg mid cfg' Hstep _ IH]; [lia|].
  destruct (step_ok cfg mid Hreach Hstep) as [Hmid Hle].
  specialize (IH Hmid). lia.
Qed.

Lemma setsize_never_decreases_witness :
  setsize (Config 1 [AtSyscall 1 1]) ≤ setsize (Config 2 [Returned None]).
Proof.
  apply (setsize_never_decreases (Config 1 [AtSyscall 1 1]) (Config 2 [Returned None])).
  - eapply rtc_l; [exact (step_call 1 [])|].
    eapply rtc_l; [exact (step_move 1 1 [AtLoad] 0 AtLoad _ eq_refl (step_load 1))|].
    apply rtc_refl.
  - eapply rtc_l.
    { refine (step_move 1 1 [AtSyscall 1 1] 0 _ _ eq_refl (step_einval 1 1 1 _)). lia. }
    eapply rtc_l.
    { refine (step_move 1 1 [AtSyscall 1 2] 0 _ _ eq_refl (step_success 1 1 2 _)). lia. }
    eapply rtc_l.
    { exact (step_move 1 2 [AtCAS 1 2] 0 _ _ eq_refl (step_cas_won 1 2)). }
    apply rtc_refl.
Defined.

(** ** Set.List *)

Lemma bit_is_test want w k :
  0 ≤ k → bit_is want (Z.land w (2 ^ k)) = Bool.eqb want (Z.testbit w k).
Proof.
  intros Hk. unfold bit_is. pose proof (land_pow2_test w k Hk) as E.
  destruct want; [rewrite E; destruct (Z.testbit w k); reflexivity|].
  rewrite <- E. destruct (Z.land w (2 ^ k) =? 0); reflexivity.
Qed.

Lemma shl1_pow2 k :
  0 ≤ k < 64 → shl1 (2 ^ k) = if decide (k = 63) then 0 else 2 ^ (k + 1).
Proof.
  intros Hk. unfold shl1. rewrite Z.shiftl_mul_pow2 by lia.
  change (2 ^ 1) with 2. case_decide as E.
  - subst k. reflexivity.
  - replace (2 ^ k * 2) with (2 ^ (k + 1)) by (rewrite Z.pow_add_r; lia).
    apply wrap_small. destruct (pow2_uint (k + 1)); lia.
Qed.

Lemma bit_of_at (s : CPUSet) i w k :
  0 ≤ i → s !! Z.to_nat i = Some w → 0 ≤ k < 64 →
  bit_of s (64 * i + k) = Z.testbit w k.
Proof.
  intros Hi Hw Hk. rewrite <- (Z2Nat.id i) at 1 by exact Hi.
  apply bit_of_lookup; assumption.
Qed.

Lemma bits_run_app (s : CPUSet) b lo mid hi :
  bits_run s b lo mid → bits_run s b mid hi → bits_run s b lo hi.
Proof.
  intros H1 H2 p Hp. destruct (decide (p < mid)); [apply H1|apply H2]; lia.
Qed.

Lemma bits_run_one (s : CPUSet) b p : bit_of s p = b → bits_run s b p (p + 1).
Proof. intros Hb q Hq. assert (q = p) as -> by lia. exact Hb. Qed.

Lemma bits_run_nil (s : CPUSet) b p : bits_run s b p p.
Proof. intros q Hq. lia. Qed.

Lemma lookup_word (s : CPUSet) i :
  0 ≤ i < len s → ∃ w, s !! Z.to_nat i = Some w.
Proof. intros Hi. apply lookup_lt_is_Some_2. unfold len in Hi. lia. Qed.

Lemma allones_bits k : 0 ≤ k < 64 → Z.testbit allones k = true.
Proof.
  intros Hk. unfold allones, uint_modulus.
  replace (2 ^ 64 - 1) with (Z.ones 64) by (rewrite Z.ones_equiv; lia).
  apply Z.ones_spec_low. lia.
Qed.

Lemma uint_has_set_bit w :
  is_uint w → w ≠ 0 → ∃ k, 0 ≤ k < 64 ∧ Z.testbit w k = true.
Proof.
  intros Hw Hne. assert (Hpos : 0 < w < uint_modulus) by (unfold is_uint in Hw; lia).
  exists (Z.log2 w). split; [apply uint_log2; exact Hpos|apply Z.bit_log2; lia].
Qed.

Lemma uint_has_clear_bit w :
  is_uint w → w ≠ allones → ∃ k, 0 ≤ k < 64 ∧ Z.testbit w k = false.
Proof.
  intros Hw Hne.
  assert (Hpos : 0 < allones - w < uint_modulus) by (unfold is_uint in Hw; consts; lia).
  pose proof (uint_log2 _ Hpos) as Hk.
  exists (Z.log2 (allones - w)). split; [exact Hk|].
  pose proof (Z.bit_log2 (allones - w) (proj1 Hpos)) as Hset.
  replace (allones - w) with (Z.lnot w + 2 ^ 64) in Hset at 1
    by (unfold Z.lnot, allones, uint_modulus; lia).
  rewrite Z.add_pow2_spec_low, Z.lnot_spec in Hset by lia.
  destruct (Z.testbit w _); [discriminate|reflexivity].
Qed.

Lemma in_word p i : 64 * i ≤ p < 64 * (i + 1) → ∃ k, 0 ≤ k < 64 ∧ p = 64 * i + k.
Proof. intros Hp. exists (p - 64 * i). lia. Qed.

(** Inside a word that differs from [v], the fast-forward does nothing. *)
Lemma skipWords_stay v fuel (s : CPUSet) c w :
  0 ≤ cpuwordidx c → s !! Z.to_nat (cpuwordidx c) = Some w → w ≠ v →
  skipWords v fuel s c = Returns c.
Proof.
  intros Hidx Hw Hne.
  assert (skipWords v fuel s c =
          if cpuwordidx c <? len s then
            w ← word_at s (cpuwordidx c);
            if w =? v then
              match fuel with
              | O => OutOfFuel
              | S fuel' =>
                  skipWords v fuel' s
                    (Cursor (wrap (cpuno c + 64)) (wrap (cpuwordidx c + 1)) (cpuwordmask c))
              end
            else Returns c
          else Returns c) as -> by (destruct fuel; reflexivity).
  destruct (cpuwordidx c <? len s); [|reflexivity].
  unfold word_at. rewrite Hw. simpl.
  rewrite (proj2 (Z.eqb_neq _ _) Hne). reflexivity.
Qed.

Lemma cursor_ok_mask1 (s : CPUSet) c :
  cursor_ok s c → cpuwordmask c = 1 → cpuno c = 64 * cpuwordidx c.
Proof.
  intros (k & Hk & Hmask & Hno & _) H1. rewrite Hmask in H1.
  assert (k = 0); [|lia].
  apply (Z.pow_inj_r 2); [lia|lia|lia|]. rewrite H1. reflexivity.
Qed.

Lemma cursor_ok_mask_ne1 (s : CPUSet) c :
  cursor_ok s c → cpuwordmask c ≠ 1 → cpuwordidx c < len s.
Proof.
  intros (k & Hk & Hmask & Hno & _ & Hin) H1. apply Hin. intros ->.
  apply H1. rewrite Hmask. reflexivity.
Qed.

Lemma cursor_ok_bounds (s : CPUSet) c :
  cursor_ok s c → 0 ≤ cpuno c ≤ 64 * len s ∧ 0 ≤ cpuwordidx c ∧
                  64 * cpuwordidx c ≤ cpuno c < 64 * (cpuwordidx c + 1).
Proof.
  intros (k & Hk & Hmask & Hno & Hidx & Hin).
  destruct (decide (k = 0)) as [->|Hne]; [lia|]. specialize (Hin Hne). lia.
Qed.

Lemma ranges_from_snoc gap lo (l : CPUList) r :
  ranges_from gap lo l → Forall (λ x, x.2 + gap ≤ r.1) l →
  lo ≤ r.1 → r.1 ≤ r.2 → r.2 < uint_modulus →
  ranges_from gap lo (l ++ [r]).
Proof.
  revert lo. induction l as [|x l IH]; intros lo Hl Hall Hlo Hr1 Hr2; simpl.
  - tauto.
  - simpl in Hl. destruct Hl as (H1 & H2 & H3 & Hl).
    apply Forall_cons in Hall as [Hx Hall].
    split_and!; try assumption. apply IH; assumption.
Qed.

Lemma covers_snoc (l : CPUList) r p : covers (l ++ [r]) p ↔ covers l p ∨ in_range p r.
Proof.
  unfold covers. rewrite Exists_app, Exists_cons, Exists_nil. tauto.
Qed.

Lemma covers_upper (l : CPUList) n p : Forall (λ r, r.2 < n) l → covers l p → p < n.
Proof.
  intros Hall Hc. apply Exists_exists in Hc as (r & Hr & Hp).
  rewrite Forall_forall in Hall. specialize (Hall r Hr).
  unfold in_range in Hp. lia.
Qed.

Lemma bit_of_beyond (s : CPUSet) p : 64 * len s ≤ p → bit_of s p = false.
Proof.
  intros Hp. unfold bit_of. rewrite lookup_ge_None_2; [reflexivity|].
  assert (len s ≤ p / 64) by (apply Z.div_le_lower_bound; lia).
  unfold len in *. lia.
Qed.

Lemma ranges_from_Forall gap lo (l : CPUList) :
  0 ≤ gap → ranges_from gap lo l →
  Forall (λ r, lo ≤ r.1 ∧ r.1 ≤ r.2 ∧ r.2 < uint_modulus) l.
Proof.
  intros Hgap. revert lo. induction l as [|x l IH]; intros lo Hl; [constructor|].
  simpl in Hl. destruct Hl as (H1 & H2 & H3 & Hl). constructor; [tauto|].
  eapply Forall_impl; [apply (IH _ Hl)|]. simpl. intros r Hr. lia.
Qed.

Lemma ranges_from_pairwise gap lo (l : CPUList) : ∀ (i j : nat) r1 r2,
  0 ≤ gap → ranges_from gap lo l → (i < j)%nat →
  l !! i = Some r1 → l !! j = Some r2 → r1.2 + gap ≤ r2.1.
Proof.
  revert lo. induction l as [|x l IH]; intros lo i j r1 r2 Hgap Hl Hij Hi Hj.
  - discriminate.
  - simpl in Hl. destruct Hl as (H1 & H2 & H3 & Hl).
    destruct j as [|j]; [lia|]. simpl in Hj. destruct i as [|i]; simpl in Hi.
    + injection Hi as ->.
      pose proof (ranges_from_Forall gap _ l Hgap Hl) as Hall.
      rewrite Forall_lookup in Hall. specialize (Hall j r2 Hj). lia.
    + apply (IH _ i j r1 r2 Hgap Hl); [lia|assumption|assumption].
Qed.

(** The loops of [Set.List] on a fixed well-formed set. *)
Section SetList.

Context (s : CPUSet) (Hwf : wf_Set s).

Let Hwords : Forall is_uint s := proj1 Hwf.
Let Hlen : len s * bitsperword < uint_modulus := proj2 Hwf.

(** The scan inside a word. *)
Lemma scanInWord_spec want : ∀ fuel c,
  cursor_ok s c → cpuwordidx c < len s →
  64 * (cpuwordidx c + 1) - cpuno c ≤ Z.of_nat fuel →
  ∃ found c',
    scanInWord want fuel s c = Returns (found, c') ∧
    cursor_ok s c' ∧ cpuno c ≤ cpuno c' ∧
    bits_run s (negb want) (cpuno c) (cpuno c') ∧
    if (found : bool)
    then bit_of s (cpuno c') = want ∧ cpuwordidx c' = cpuwordidx c
    else cpuwordmask c' = 1 ∧ cpuwordidx c' = cpuwordidx c + 1.
Proof.
  induction fuel as [|fuel IH]; intros [no idx mask];
    intros (k & Hk & Hmask & Hno & Hidx & Hin) Hlt Hfuel; simpl in *.
  - lia.
  - destruct (lookup_word s idx) as [w Hw]; [lia|].
    unfold word_at. rewrite Hw. simpl.
    rewrite Hmask, bit_is_test by lia.
    pose proof (bit_of_at s idx w k ltac:(lia) Hw Hk) as Hbit. rewrite <- Hno in Hbit.
    destruct (Bool.eqb want (Z.testbit w k)) eqn:Hhit.
    + exists true, (Cursor no idx mask). simpl.
      split; [rewrite Hmask; reflexivity|]. split; [exists k; auto|]. split; [lia|].
      split; [apply bits_run_nil|]. split; [|reflexivity].
      rewrite Hbit. symmetry. apply Bool.eqb_prop. exact Hhit.
    + assert (Hmiss : bit_of s no = negb want).
      { rewrite Hbit. destruct want, (Z.testbit w k); simpl in *; congruence. }
      rewrite shl1_pow2 by exact Hk.
      rewrite !wrap_small by (consts; lia).
      case_decide as E.
      * subst k. simpl.
        exists false, (Cursor (no + 1) (idx + 1) 1). simpl.
        split; [reflexivity|]. split.
        { exists 0. simpl. split_and!; first [lia|reflexivity]. }
        split; [lia|]. split; [apply bits_run_one; exact Hmiss|]. split; reflexivity.
      * assert (Hpos : 0 < 2 ^ (k + 1)) by (apply Z.pow_pos_nonneg; lia).
        rewrite (proj2 (Z.eqb_neq _ _)) by lia.
        destruct (IH (Cursor (no + 1) idx (2 ^ (k + 1)))) as (found & c' & Hrun & Hok & Hle & Hbits & Hend);
          simpl; try lia.
        { exists (k + 1). simpl. split_and!; first [lia|reflexivity]. }
        simpl in *. exists found, c'.
        split; [exact Hrun|]. split; [exact Hok|]. split; [lia|].
        split; [|exact Hend].
        eapply bits_run_app; [apply bits_run_one; exact Hmiss|exact Hbits].
Qed.

(** The fast-forward over words equal to [v], all of whose bits are [b]. *)
Lemma skipWords_spec v b :
  (∀ k, 0 ≤ k < 64 → Z.testbit v k = b) → ∀ fuel c,
  cursor_ok s c → cpuwordmask c = 1 →
  len s - cpuwordidx c ≤ Z.of_nat fuel →
  ∃ c',
    skipWords v fuel s c = Returns c' ∧
    cursor_ok s c' ∧ cpuwordmask c' = 1 ∧ cpuno c ≤ cpuno c' ∧
    bits_run s b (cpuno c) (cpuno c') ∧
    (cpuwordidx c' = len s ∨
     (cpuwordidx c' < len s ∧ ∃ w, s !! Z.to_nat (cpuwordidx c') = Some w ∧ w ≠ v)).
Proof.
  intros Hv. induction fuel as [|fuel IH]; intros [no idx mask];
    intros Hok Hmask Hfuel; pose proof Hok as (k & Hk & Hmk & Hno & Hidx & Hin);
    simpl in *; subst mask.
  - rewrite (proj2 (Z.ltb_ge _ _)) by lia.
    exists (Cursor no idx 1). simpl. split; [reflexivity|]. split; [exact Hok|].
    split; [reflexivity|]. split; [lia|]. split; [apply bits_run_nil|]. left. lia.
  - destruct (Z.ltb_spec idx (len s)) as [Hlt|Hge].
    + destruct (lookup_word s idx) as [w Hw]; [lia|].
      unfold word_at. rewrite Hw. simpl.
      assert (k = 0) as ->.
      { apply (Z.pow_inj_r 2); [lia|lia|lia|]. rewrite <- Hmk. reflexivity. }
      destruct (Z.eqb_spec w v) as [->|Hne].
      * rewrite !wrap_small by (consts; lia).
        destruct (IH (Cursor (no + 64) (idx + 1) 1)) as (c' & Hrun & Hok' & Hm' & Hle & Hbits & Hend);
          simpl; try lia.
        { exists 0. simpl. split_and!; first [lia|reflexivity]. }
        simpl in *. exists c'. split; [exact Hrun|]. split; [exact Hok'|].
        split; [exact Hm'|]. split; [lia|]. split; [|exact Hend].
        eapply bits_run_app; [|exact Hbits].
        intros p Hp. destruct (in_word p idx) as (k & Hk' & ->); [lia|].
        rewrite (bit_of_at s idx v k) by (assumption || lia). apply Hv, Hk'.
      * exists (Cursor no idx 1). simpl. split; [reflexivity|]. split; [exact Hok|].
        split; [reflexivity|]. split; [lia|]. split; [apply bits_run_nil|].
        right. split; [exact Hlt|]. eauto.
    + exists (Cursor no idx 1). simpl. split; [reflexivity|]. split; [exact Hok|].
      split; [reflexivity|]. split; [lia|]. split; [apply bits_run_nil|]. left. lia.
Qed.

(** The scan that trusts the word to hold the bit it looks for. *)
Lemma scanBit_spec want : ∀ fuel c,
  cursor_ok s c → cpuwordidx c < len s →
  (∃ p, cpuno c ≤ p < 64 * (cpuwordidx c + 1) ∧ bit_of s p = want) →
  64 * (cpuwordidx c + 1) - cpuno c ≤ Z.of_nat fuel →
  ∃ c',
    scanBit want fuel s c = Returns c' ∧
    cursor_ok s c' ∧ cpuwordidx c' = cpuwordidx c ∧ cpuno c ≤ cpuno c' ∧
    bits_run s (negb want) (cpuno c) (cpuno c') ∧
    bit_of s (cpuno c') = want.
Proof.
  induction fuel as [|fuel IH]; intros [no idx mask];
    intros (k & Hk & Hmask & Hno & Hidx & Hin) Hlt (p & Hp & Hpbit) Hfuel; simpl in *.
  - lia.
  - destruct (lookup_word s idx) as [w Hw]; [lia|].
    unfold word_at. rewrite Hw. simpl.
    rewrite Hmask, bit_is_test by lia.
    pose proof (bit_of_at s idx w k ltac:(lia) Hw Hk) as Hbit. rewrite <- Hno in Hbit.
    destruct (Bool.eqb want (Z.testbit w k)) eqn:Hhit.
    + exists (Cursor no idx mask). simpl.
      split; [rewrite Hmask; reflexivity|]. split; [exists k; auto|]. split; [reflexivity|].
      split; [lia|]. split; [apply bits_run_nil|].
      rewrite Hbit. symmetry. apply Bool.eqb_prop. exact Hhit.
    + assert (Hmiss : bit_of s no = negb want).
      { rewrite Hbit. destruct want, (Z.testbit w k); simpl in *; congruence. }
      assert (p ≠ no).
      { intros ->. rewrite Hmiss in Hpbit. destruct want; discriminate. }
      rewrite shl1_pow2 by exact Hk.
      rewrite decide_False by lia.
      rewrite !wrap_small by (consts; lia).
      destruct (IH (Cursor (no + 1) idx (2 ^ (k + 1)))) as (c' & Hrun & Hok & Hi & Hle & Hbits & Hend);
        simpl; try lia.
      { exists (k + 1). simpl. split_and!; first [lia|reflexivity]. }
      { exists p. split; [lia|exact Hpbit]. }
      simpl in *. exists c'.
      split; [exact Hrun|]. split; [exact Hok|]. split; [exact Hi|]. split; [lia|].
      split; [|exact Hend].
      eapply bits_run_app; [apply bits_run_one; exact Hmiss|exact Hbits].
Qed.

Lemma stepOver_spec c :
  cursor_ok s c → cpuwordidx c < len s →
  cursor_ok s (stepOver c) ∧ cpuno (stepOver c) = cpuno c + 1.
Proof.
  intros (k & Hk & Hmask & Hno & Hidx & Hin) Hlt.
  unfold stepOver. rewrite Hmask, shl1_pow2 by exact Hk.
  rewrite !wrap_small by (consts; lia).
  case_decide as E.
  - subst k. simpl. split; [|reflexivity].
    exists 0. simpl. split_and!; first [lia|reflexivity].
  - assert (Hpos : 0 < 2 ^ (k + 1)) by (apply Z.pow_pos_nonneg; lia).
    rewrite (proj2 (Z.eqb_neq _ _)) by lia. simpl. split; [|reflexivity].
    exists (k + 1). simpl. split_and!; first [lia|reflexivity].
Qed.

(** From here on the loops are used through their specifications only. *)
#[local] Arguments scanInWord : simpl never.
#[local] Arguments skipWords : simpl never.
#[local] Arguments scanBit : simpl never.
#[local] Arguments List_body : simpl never.

Lemma List_body_phases c cpulist :
  List_body s c cpulist =
    (r ← findSet s c;
     match r with
     | None => Returns (inl cpulist)
     | Some c =>
         let cpufrom := cpuno c in
         '(more, c) ← findUnset s (stepOver c);
         if (more : bool) then Returns (inr (c, appendRange cpulist cpufrom c))
         else Returns (inl (appendRange cpulist cpufrom c))
     end).
Proof.
  unfold List_body, findSet, findUnset.
  destruct (if negb (cpuwordmask c =? 1) then _ else _) as [[? c1]| |]; simpl; try reflexivity.
  destruct (skipWords 0 (length s) s c1) as [c2| |]; simpl; try reflexivity.
  destruct (len s <=? cpuwordidx c2); simpl; try reflexivity.
  destruct (scanBit true 65 s c2) as [c3| |]; simpl; try reflexivity.
  destruct (if negb (cpuwordmask (stepOver c3) =? 1) then _ else _) as [[[] c5]| |];
    simpl; try reflexivity.
  destruct (skipWords allones (length s) s c5) as [c6| |]; simpl; try reflexivity.
  destruct (len s <=? cpuwordidx c6); simpl; try reflexivity.
  destruct (scanBit false 65 s c6) as [c7| |]; simpl; reflexivity.
Qed.

(** From the start of a word on: fast-forward, then either the set is
    exhausted or the wanted bit is found in the word reached. *)
Lemma seek_from_word v want c1 :
  (∀ k, 0 ≤ k < 64 → Z.testbit v k = negb want) →
  (∀ w, is_uint w → w ≠ v → ∃ k, 0 ≤ k < 64 ∧ Z.testbit w k = want) →
  cursor_ok s c1 → cpuwordmask c1 = 1 →
  ∃ c2,
    skipWords v (length s) s c1 = Returns c2 ∧
    cursor_ok s c2 ∧ cpuno c1 ≤ cpuno c2 ∧
    bits_run s (negb want) (cpuno c1) (cpuno c2) ∧
    (((len s <=? cpuwordidx c2) = true ∧ cpuno c2 = 64 * len s)
     ∨ ((len s <=? cpuwordidx c2) = false ∧
        ∃ c3, scanBit want 65 s c2 = Returns c3 ∧
              cursor_ok s c3 ∧ cpuwordidx c3 < len s ∧ cpuno c2 ≤ cpuno c3 ∧
              bits_run s (negb want) (cpuno c2) (cpuno c3) ∧
              bit_of s (cpuno c3) = want)).
Proof.
  intros Hv Hbitv Hok1 Hm1.
  pose proof (cursor_ok_bounds s c1 Hok1) as Hb1.
  destruct (skipWords_spec v (negb want) Hv (length s) c1 Hok1 Hm1)
    as (c2 & Hskip & Hok2 & Hm2 & Hle & Hrun & Hend); [unfold len; lia|].
  exists c2. split; [exact Hskip|]. split; [exact Hok2|]. split; [exact Hle|].
  split; [exact Hrun|].
  pose proof (cursor_ok_mask1 s c2 Hok2 Hm2) as Hno2.
  destruct Hend as [Hend|(Hlt & w & Hw & Hne)].
  - left. split; [apply Z.leb_le; lia|lia].
  - right. split; [apply Z.leb_gt; lia|].
    pose proof (cursor_ok_bounds s c2 Hok2) as Hb2.
    destruct (Hbitv w) as (k & Hk & Hwk); [|exact Hne|].
    { eapply Forall_lookup_1; eauto. }
    destruct (scanBit_spec want 65 c2 Hok2 Hlt) as (c3 & Hscan & Hok3 & Hi3 & Hle3 & Hrun3 & Hbit3).
    + exists (64 * cpuwordidx c2 + k). split; [lia|].
      rewrite (bit_of_at s _ w k) by (assumption || lia). exact Hwk.
    + lia.
    + exists c3. split_and!; try assumption. lia.
Qed.

Lemma findSet_spec c :
  cursor_ok s c →
  ∃ r, findSet s c = Returns r ∧
       match r with
       | None => bits_run s false (cpuno c) (64 * len s)
       | Some c3 =>
           cursor_ok s c3 ∧ cpuwordidx c3 < len s ∧ cpuno c ≤ cpuno c3 ∧
           bits_run s false (cpuno c) (cpuno c3) ∧ bit_of s (cpuno c3) = true
       end.
Proof.
  intros Hok. unfold findSet.
  assert (Htail : ∀ c1, cursor_ok s c1 → cpuwordmask c1 = 1 → cpuno c ≤ cpuno c1 →
            bits_run s false (cpuno c) (cpuno c1) →
            ∃ r, (c ← skipWords 0 (length s) s c1;
                  if len s <=? cpuwordidx c then Returns None
                  else c ← scanBit true 65 s c; Returns (Some c)) = Returns r ∧
                 match r with
                 | None => bits_run s false (cpuno c) (64 * len s)
                 | Some c3 =>
                     cursor_ok s c3 ∧ cpuwordidx c3 < len s ∧ cpuno c ≤ cpuno c3 ∧
                     bits_run s false (cpuno c) (cpuno c3) ∧ bit_of s (cpuno c3) = true
                 end).
  { intros c1 Hok1 Hm1 Hle1 Hrun1.
    destruct (seek_from_word 0 true c1) as (c2 & Hskip & Hok2 & Hle2 & Hrun2 & Hend);
      try assumption.
    { intros k _. apply Z.bits_0. }
    { intros w Hw Hne. apply uint_has_set_bit; assumption. }
    rewrite Hskip. simpl.
    destruct Hend as [[Hge Hno2]|(Hlt & c3 & Hscan & Hok3 & Hi3 & Hle3 & Hrun3 & Hbit3)].
    - rewrite Hge. exists None. split; [reflexivity|]. rewrite <- Hno2.
      eapply bits_run_app; eassumption.
    - rewrite Hlt, Hscan. simpl. exists (Some c3). split; [reflexivity|].
      split_and!; try assumption; [lia|].
      eapply bits_run_app; [eassumption|]. eapply bits_run_app; eassumption. }
  destruct (Z.eqb_spec (cpuwordmask c) 1) as [Hm|Hm]; simpl.
  - apply Htail; [exact Hok|exact Hm|lia|apply bits_run_nil].
  - pose proof (cursor_ok_mask_ne1 s c Hok Hm) as Hlt.
    pose proof (cursor_ok_bounds s c Hok) as Hb.
    destruct (scanInWord_spec true 64 c Hok Hlt) as (found & c1 & Hscan & Hok1 & Hle1 & Hrun1 & Hend);
      [lia|].
    rewrite Hscan. simpl. destruct found.
    + destruct Hend as [Hbit1 Hi1].
      pose proof (cursor_ok_bounds s c1 Hok1) as Hb1.
      destruct (bit_of_true s (cpuno c1) ltac:(lia) Hbit1) as (w & Hw & Hwk).
      assert (Hq : cpuno c1 / 64 = cpuwordidx c1).
      { destruct Hok1 as (k & Hk & _ & Hno & _). rewrite Hno.
        apply (divmod_at (cpuwordidx c1) k Hk). }
      rewrite Hq in Hw.
      rewrite (skipWords_stay 0 _ s c1 w); [|lia|exact Hw|].
      2:{ intros ->. rewrite Z.bits_0 in Hwk. discriminate. }
      simpl. rewrite (proj2 (Z.leb_gt _ _)) by lia.
      destruct (scanBit_spec true 65 c1 Hok1) as (c3 & Hscan3 & Hok3 & Hi3 & Hle3 & Hrun3 & Hbit3).
      * lia.
      * exists (cpuno c1). split; [lia|exact Hbit1].
      * lia.
      * rewrite Hscan3. simpl. exists (Some c3). split; [reflexivity|].
        split_and!; try assumption; [lia|lia|].
        eapply bits_run_app; eassumption.
    + destruct Hend as [Hm1 Hi1]. apply Htail; assumption.
Qed.

Lemma findUnset_spec c :
  cursor_ok s c →
  ∃ more c',
    findUnset s c = Returns (more, c') ∧
    cursor_ok s c' ∧ cpuno c ≤ cpuno c' ∧
    bits_run s true (cpuno c) (cpuno c') ∧
    if (more : bool) then cpuwordidx c' < len s ∧ bit_of s (cpuno c') = false
    else cpuno c' = 64 * len s.
Proof.
  intros Hok. unfold findUnset.
  assert (Htail : ∀ c1, cursor_ok s c1 → cpuwordmask c1 = 1 → cpuno c ≤ cpuno c1 →
            bits_run s true (cpuno c) (cpuno c1) →
            ∃ more c',
              (c ← skipWords allones (length s) s c1;
               if len s <=? cpuwordidx c then Returns (false, c)
               else c ← scanBit false 65 s c; Returns (true, c)) = Returns (more, c') ∧
              cursor_ok s c' ∧ cpuno c ≤ cpuno c' ∧
              bits_run s true (cpuno c) (cpuno c') ∧
              if (more : bool) then cpuwordidx c' < len s ∧ bit_of s (cpuno c') = false
              else cpuno c' = 64 * len s).
  { intros c1 Hok1 Hm1 Hle1 Hrun1.
    destruct (seek_from_word allones false c1) as (c2 & Hskip & Hok2 & Hle2 & Hrun2 & Hend);
      try assumption.
    { intros k Hk. apply allones_bits, Hk. }
    { intros w Hw Hne. apply uint_has_clear_bit; assumption. }
    rewrite Hskip. simpl.
    destruct Hend as [[Hge Hno2]|(Hlt & c3 & Hscan & Hok3 & Hi3 & Hle3 & Hrun3 & Hbit3)].
    - rewrite Hge. exists false, c2. split; [reflexivity|].
      split_and!; try assumption; [lia|]. eapply bits_run_app; eassumption.
    - rewrite Hlt, Hscan. simpl. exists true, c3. split; [reflexivity|].
      split_and!; try assumption; [lia|].
      eapply bits_run_app; [eassumption|]. eapply bits_run_app; eassumption. }
  destruct (Z.eqb_spec (cpuwordmask c) 1) as [Hm|Hm]; simpl.
  - apply Htail; [exact Hok|exact Hm|lia|apply bits_run_nil].
  - pose proof (cursor_ok_mask_ne1 s c Hok Hm) as Hlt.
    pose proof (cursor_ok_bounds s c Hok) as Hb.
    destruct (scanInWord_spec false 64 c Hok Hlt) as (found & c1 & Hscan & Hok1 & Hle1 & Hrun1 & Hend);
      [lia|].
    rewrite Hscan. simpl. destruct found.
    + destruct Hend as [Hbit1 Hi1].
      exists true, c1. split; [reflexivity|]. split_and!; try assumption. lia.
    + destruct Hend as [Hm1 Hi1]. apply Htail; assumption.
Qed.

(** One turn of the loop keeps the invariant and moves forward, or returns
    the finished list. *)
Lemma List_body_spec c cpulist :
  list_inv s c cpulist →
  ∃ r, List_body s c cpulist = Returns r ∧
       match r with
       | inl done =>
           minimal done ∧ Forall (λ r, r.2 < 64 * len s) done ∧
           ∀ p, 0 ≤ p → bit_of s p = true ↔ covers done p
       | inr (c', cpulist') => list_inv s c' cpulist' ∧ cpuno c < cpuno c'
       end.
Proof.
  intros (Hok & Hmin & Hup & Hgap & Hcov).
  pose proof (cursor_ok_bounds s c Hok) as Hb.
  assert (Hfinal : ∀ (l : CPUList) n,
            n = 64 * len s → Forall (λ r, r.2 < n) l →
            (∀ p, 0 ≤ p < n → bit_of s p = true ↔ covers l p) →
            ∀ p, 0 ≤ p → bit_of s p = true ↔ covers l p).
  { intros l n -> Hl Hc p Hp. destruct (decide (p < 64 * len s)) as [Hlt|Hge].
    - apply Hc. lia.
    - rewrite bit_of_beyond by lia. split; [discriminate|].
      intros Hcp. apply (covers_upper l _ p Hl) in Hcp. lia. }
  rewrite List_body_phases.
  destruct (findSet_spec c Hok) as (r & Hfind & Hr). rewrite Hfind. simpl.
  destruct r as [c3|].
  - destruct Hr as (Hok3 & Hi3 & Hle3 & Hrun3 & Hbit3).
    destruct (stepOver_spec c3 Hok3 Hi3) as [Hok4 Hno4].
    destruct (findUnset_spec (stepOver c3) Hok4) as (more & c' & Hun & Hok' & Hle' & Hrun' & Hend).
    rewrite Hun. simpl.
    pose proof (cursor_ok_bounds s c' Hok') as Hb'.
    assert (Hwrap : wrap (cpuno c' - 1) = cpuno c' - 1).
    { apply wrap_small. consts. lia. }
    unfold appendRange. rewrite Hwrap.
    set (f := cpuno c3) in *. set (e := cpuno c' - 1).
    assert (Hfe : f ≤ e) by (unfold e; lia).
    assert (Hcf : cpulist ≠ [] → cpuno c < f).
    { intros Hne. specialize (Hgap Hne).
      destruct (decide (cpuno c = f)) as [E|]; [|lia].
      rewrite E in Hgap. rewrite Hgap in Hbit3. discriminate. }
    assert (Hmin' : minimal (cpulist ++ [(f, e)])).
    { apply ranges_from_snoc; simpl; try lia; [exact Hmin| |].
      - destruct cpulist as [|x l]; [constructor|]. specialize (Hcf ltac:(discriminate)).
        eapply Forall_impl; [exact Hup|]. simpl. intros ? ?. lia.
      - unfold e. consts. lia. }
    assert (Hup' : Forall (λ r, r.2 < cpuno c') (cpulist ++ [(f, e)])).
    { apply Forall_app. split.
      - eapply Forall_impl; [exact Hup|]. simpl. intros ? ?. lia.
      - repeat constructor. simpl. unfold e. lia. }
    assert (Hcov' : ∀ p, 0 ≤ p < cpuno c' →
              bit_of s p = true ↔ covers (cpulist ++ [(f, e)]) p).
    { intros p Hp. rewrite covers_snoc. unfold in_range. simpl.
      destruct (decide (p < cpuno c)) as [Hlt|Hge].
      - rewrite Hcov by lia. split; [tauto|]. intros [?|?]; [assumption|lia].
      - destruct (decide (p < f)) as [Hltf|Hgef].
        + rewrite Hrun3 by lia. split; [discriminate|].
          intros [Hcp|?]; [|lia]. apply (covers_upper _ _ p Hup) in Hcp. lia.
        + assert (Hp1 : bit_of s p = true).
          { destruct (decide (p = f)) as [->|]; [exact Hbit3|]. apply Hrun'. lia. }
          rewrite Hp1. split; [intros _; right; unfold e; lia|reflexivity]. }
    destruct more.
    + destruct Hend as [Hi' Hbit'].
      eexists. split; [reflexivity|]. simpl. split; [|lia].
      split_and!; try assumption. intros _. exact Hbit'.
    + eexists. split; [reflexivity|]. simpl. split_and!.
      * exact Hmin'.
      * rewrite <- Hend. exact Hup'.
      * apply (Hfinal _ (cpuno c')); assumption.
  - eexists. split; [reflexivity|]. simpl. split_and!.
    + exact Hmin.
    + eapply Forall_impl; [exact Hup|]. simpl. intros ? ?. lia.
    + apply (Hfinal _ (64 * len s)); [reflexivity| |].
      * eapply Forall_impl; [exact Hup|]. simpl. intros ? ?. lia.
      * intros p Hp. destruct (decide (p < cpuno c)) as [Hlt|Hge].
        -- apply Hcov. lia.
        -- rewrite Hr by lia. split; [discriminate|].
           intros Hcp. apply (covers_upper _ _ p Hup) in Hcp. lia.
Qed.

Lemma List_loop_spec : ∀ fuel c cpulist,
  list_inv s c cpulist → 64 * len s - cpuno c + 1 ≤ Z.of_nat fuel →
  ∃ done, List_loop fuel s c cpulist = Returns done ∧
          minimal done ∧ Forall (λ r, r.2 < 64 * len s) done ∧
          ∀ p, 0 ≤ p → bit_of s p = true ↔ covers done p.
Proof.
  induction fuel as [|fuel IH]; intros c cpulist Hinv Hfuel.
  - destruct Hinv as [Hok _]. pose proof (cursor_ok_bounds s c Hok). lia.
  - simpl. destruct (List_body_spec c cpulist Hinv) as (r & Hbody & Hr).
    rewrite Hbody. simpl. destruct r as [done|[c' cpulist']].
    + exists done. split; [reflexivity|exact Hr].
    + destruct Hr as [Hinv' Hlt]. apply IH; [exact Hinv'|lia].
Qed.

Lemma Set_List_spec :
  ∃ l, Set_List s = Returns l ∧ minimal l ∧ Forall (λ r, r.2 < 64 * len s) l ∧
       ∀ p, 0 ≤ p → bit_of s p = true ↔ covers l p.
Proof.
  unfold Set_List. apply List_loop_spec; [|simpl; unfold len; lia].
  split_and!.
  - exists 0. simpl. unfold len. split_and!; first [lia|reflexivity].
  - exact I.
  - constructor.
  - intros Hne. contradiction.
  - simpl. intros p Hp. lia.
Qed.

End SetList.

(** C4.  [Set.List] returns the minimal range list of the set: every range
    has [from <= to], each range starts at least two above the end of the
    one before it, a CPU is in a range exactly when it is in the set, and
    the CPU just above a range is not in the set.  The two sets of the spec
    convert as it says. *)
Theorem Set_List_minimal (s : CPUSet) :
  wf_Set s →
  (∃ l, Set_List s = Returns l ∧
        minimal l ∧
        Forall (λ r, 0 ≤ r.1 ∧ r.1 ≤ r.2) l ∧
        (∀ (i j : nat) r1 r2,
           (i < j)%nat → l !! i = Some r1 → l !! j = Some r2 → r1.2 + 1 < r2.1) ∧
        (∀ cpu, 0 ≤ cpu → IsSet s cpu = true ↔ covers l cpu) ∧
        Forall (λ r, IsSet s (r.2 + 1) = false) l) ∧
  Set_List [0xaa0] = Returns [(5, 5); (7, 7); (9, 9); (11, 11)] ∧
  Set_List [allones; 1] = Returns [(0, 64)].
Proof.
  intros Hwf. split; [|split; vm_compute; reflexivity].
  destruct (Set_List_spec s Hwf) as (l & Hrun & Hmin & Hup & Hcov).
  pose proof (ranges_from_Forall 2 0 l ltac:(lia) Hmin) as Hall.
  assert (Hpair : ∀ (i j : nat) r1 r2,
            (i < j)%nat → l !! i = Some r1 → l !! j = Some r2 → r1.2 + 1 < r2.1).
  { intros i j r1 r2 Hij Hi Hj.
    pose proof (ranges_from_pairwise 2 0 l i j r1 r2 ltac:(lia) Hmin Hij Hi Hj). lia. }
  assert (Hmem : ∀ cpu, 0 ≤ cpu → IsSet s cpu = true ↔ covers l cpu).
  { intros cpu Hcpu. rewrite IsSet_bit_of by (apply Hwf || exact Hcpu). apply Hcov, Hcpu. }
  exists l. split_and!; try assumption.
  - eapply Forall_impl; [exact Hall|]. simpl. intros r Hr. lia.
  - apply Forall_lookup. intros i r Hi.
    rewrite Forall_lookup in Hall. pose proof (Hall i r Hi) as Hr.
    destruct (IsSet s (r.2 + 1)) eqn:E; [exfalso|reflexivity].
    apply Hmem in E; [|lia].
    apply Exists_exists in E as (r' & Hin & Hp).
    apply list_elem_of_lookup in Hin as [j Hj].
    pose proof (Hall j r' Hj) as Hr'. unfold in_range in Hp.
    destruct (lt_eq_lt_dec i j) as [[Hlt|Heq]|Hgt].
    + pose proof (Hpair i j r r' Hlt Hi Hj). lia.
    + subst j. rewrite Hi in Hj. injection Hj as <-. lia.
    + pose proof (Hpair j i r' r Hgt Hj Hi). lia.
Qed.

Lemma Set_List_minimal_witness :
  (∃ l, Set_List [0x5a0; 3] = Returns l ∧
        minimal l ∧
        Forall (λ r, 0 ≤ r.1 ∧ r.1 ≤ r.2) l ∧
        (∀ (i j : nat) r1 r2,
           (i < j)%nat → l !! i = Some r1 → l !! j = Some r2 → r1.2 + 1 < r2.1) ∧
        (∀ cpu, 0 ≤ cpu → IsSet [0x5a0; 3] cpu = true ↔ covers l cpu) ∧
        Forall (λ r, IsSet [0x5a0; 3] (r.2 + 1) = false) l) ∧
  Set_List [0xaa0] = Returns [(5, 5); (7, 7); (9, 9); (11, 11)] ∧
  Set_List [allones; 1] = Returns [(0, 64)].
Proof.
  apply (Set_List_minimal [0x5a0; 3]).
  split; [repeat constructor; consts; lia | vm_compute; reflexivity].
Defined.

(** ** List.Set and the round trip *)

(** Whenever [AddRange] returns, the bits of the result are those of the
    receiver and of the range, whatever length was allocated. *)
Lemma AddRange_returns_bits (s set : CPUSet) from to :
  0 ≤ from → from ≤ to → to < uint_modulus - 1 →
  AddRange s from to = Returns set →
  ∀ c, 0 ≤ c → bit_of set c = bit_of s c || ((from <=? c) && (c <=? to)).
Proof.
  intros H0 Hle Hto Hrun. unfold AddRange in Hrun.
  rewrite gtb_le in Hrun by lia.
  assert (Hw : wrap (to / bitsperword + 1) = to / 64 + 1).
  { consts. apply wrap_small. consts.
    assert (0 ≤ to / 64) by (apply Z.div_pos; lia).
    assert (to / 64 < 18446744073709551615) by (apply Z.div_lt_upper_bound; lia). lia. }
  rewrite Hw in Hrun.
  set (n := Z.max (to / 64 + 1) (wrap (len s * bitsperword))) in *.
  destruct (Z.gtb_spec (len s) n) as [Hgt|Hn]; [discriminate|].
  rewrite AddRange_copied in Hrun by exact Hn.
  destruct (AddRange_loop_spec (Z.to_nat (to - from + 2))
              (s ++ replicate (Z.to_nat n - length s) 0) from to)
    as (set' & Hrun' & _ & Hbits); try lia.
  { unfold len in *. rewrite length_app, length_replicate. lia. }
  rewrite Hrun' in Hrun. injection Hrun as <-.
  intros c Hc. rewrite Hbits by exact Hc. rewrite bit_of_app_zeros. reflexivity.
Qed.

Lemma List_Set_loop_bits (rs : CPUList) : ∀ (s s' : CPUSet),
  Forall (λ r, 0 ≤ r.1 ∧ r.1 ≤ r.2 ∧ r.2 < uint_modulus - 1) rs →
  List_Set_loop rs s = Returns s' →
  ∀ c, 0 ≤ c → bit_of s' c = true ↔ bit_of s c = true ∨ covers rs c.
Proof.
  induction rs as [|r rs IH]; intros s s' Hrs Hrun c Hc; simpl in Hrun.
  - injection Hrun as <-. unfold covers. rewrite Exists_nil. tauto.
  - apply Forall_cons in Hrs as [(Hr0 & Hr1 & Hr2) Hrs].
    destruct (AddRange s r.1 r.2) as [s1| |] eqn:Hadd; simpl in Hrun; try discriminate.
    rewrite (IH s1 s' Hrs Hrun c Hc).
    rewrite (AddRange_returns_bits s s1 r.1 r.2 Hr0 Hr1 Hr2 Hadd c Hc).
    rewrite covers_cons, orb_true_iff, andb_true_iff, !Z.leb_le.
    unfold in_range. tauto.
Qed.

(** Where the round trip comes back, it comes back with the members of the
    set it started from. *)
Lemma List_Set_round_trip_members (s s' : CPUSet) l :
  wf_Set s → Set_List s = Returns l → List_Set l = Returns s' →
  len s' * bitsperword < uint_modulus →
  ∀ cpu, 0 ≤ cpu → IsSet s' cpu = IsSet s cpu.
Proof.
  intros Hwf Hlist Hset Hlen' cpu Hcpu.
  destruct (Set_List_spec s Hwf) as (l' & Hlist' & Hmin & Hup & Hcov).
  rewrite Hlist in Hlist'. injection Hlist' as <-.
  rewrite !IsSet_bit_of by (apply Hwf || assumption).
  apply eq_true_iff_eq. rewrite (Hcov cpu Hcpu).
  unfold List_Set in Hset. destruct (len l =? 0) eqn:El.
  - injection Hset as <-. destruct l; [|unfold len in El; simpl in El; lia].
    unfold bit_of, covers. rewrite lookup_nil, Exists_nil. split; [discriminate|tauto].
  - assert (HF : Forall (λ r, 0 ≤ r.1 ∧ r.1 ≤ r.2 ∧ r.2 < uint_modulus - 1) (reverse l)).
    { apply Forall_reverse.
      pose proof (ranges_from_Forall 2 0 l ltac:(lia) Hmin) as Hall.
      apply Forall_forall. intros r Hr.
      rewrite Forall_forall in Hall, Hup.
      specialize (Hall r Hr). specialize (Hup r Hr).
      destruct Hwf as [_ Hlen]. consts. lia. }
    rewrite (List_Set_loop_bits (reverse l) [] s' HF Hset cpu Hcpu).
    unfold bit_of, covers. rewrite lookup_nil, !Exists_exists.
    split.
    + intros [?|(r & Hr & Hp)]; [discriminate|].
      exists r. split; [|exact Hp]. apply elem_of_reverse. exact Hr.
    + intros (r & Hr & Hp). right. exists r. split; [|exact Hp].
      apply elem_of_reverse. exact Hr.
Qed.

(** *** The length of the set across List.Set *)

Lemma AddRange_small_range_len (s : CPUSet) from to :
  0 ≤ from → from ≤ to → to < 64 → 1 ≤ len s → len s * 64 < uint_modulus →
  ∃ s', AddRange s from to = Returns s' ∧ len s' = len s * 64.
Proof.
  intros H0 Hle Hto Hlen1 Hlen.
  destruct (AddRange_spec s from to) as (s' & Hrun & Hl & _); try (consts; lia).
  exists s'. split; [exact Hrun|]. rewrite Hl. unfold AddRange_len. consts.
  rewrite Z.div_small by lia. lia.
Qed.

(** Once [uint(len(s))*bitsperword] wraps around below [len(s)], the slice
    expression [set[0:len(s)]] is out of range. *)
Lemma AddRange_wrapped_panics (s : CPUSet) from to :
  0 ≤ from → from ≤ to → to / 64 + 1 < len s →
  wrap (len s * bitsperword) < len s →
  AddRange s from to = Panics.
Proof.
  intros H0 Hle Hto Hwrap. unfold AddRange.
  rewrite gtb_le by lia.
  assert (wrap (to / bitsperword + 1) ≤ to / 64 + 1).
  { unfold wrap. consts. apply Z.mod_le; [|lia].
    assert (0 ≤ to / 64) by (apply Z.div_pos; lia). lia. }
  rewrite gtb_gt by lia. reflexivity.
Qed.

(** From a set of [64^(10-k)] words, [k] small ranges can be added and the
    next one panics. *)
Lemma List_Set_loop_overflow (k : nat) : ∀ (rs : CPUList) (s : CPUSet),
  (k ≤ 10)%nat → len s = 64 ^ (10 - Z.of_nat k) → (k < length rs)%nat →
  Forall (λ r, 0 ≤ r.1 ∧ r.1 ≤ r.2 ∧ r.2 < 64) rs →
  List_Set_loop rs s = Panics.
Proof.
  induction k as [|k IH]; intros rs s Hk Hlen Hrs Hsmall;
    (destruct rs as [|r rs]; [simpl in Hrs; lia|]);
    apply Forall_cons in Hsmall as [(Hr0 & Hr1 & Hr2) Hsmall];
    change (List_Set_loop (r :: rs) s)
      with (s' ← AddRange s r.1 r.2; List_Set_loop rs s').
  - rewrite AddRange_wrapped_panics; [reflexivity|lia|lia| |].
    + rewrite Hlen, Z.div_small by lia. reflexivity.
    + rewrite Hlen. reflexivity.
  - assert (Hpow : 64 ^ (10 - Z.of_nat k) = 64 ^ (10 - Z.of_nat (S k)) * 64).
    { replace (10 - Z.of_nat k) with (10 - Z.of_nat (S k) + 1) by lia.
      rewrite Z.pow_add_r by lia. reflexivity. }
    assert (64 ^ (10 - Z.of_nat k) ≤ 64 ^ 10) by (apply Z.pow_le_mono_r; lia).
    assert (0 < 64 ^ (10 - Z.of_nat (S k))) by (apply Z.pow_pos_nonneg; lia).
    destruct (AddRange_small_range_len s r.1 r.2) as (s' & Hadd & Hlen'); try lia.
    { rewrite Hlen, <- Hpow. consts. change (64 ^ 10) with 1152921504606846976 in *. lia. }
    rewrite Hadd. simpl. apply IH; [lia| |simpl in Hrs; lia|exact Hsmall].
    rewrite Hlen', Hlen, Hpow. reflexivity.
Qed.

(** As long as the 64-fold growth stays inside a [uint], [List.Set] returns:
    [q] bounds the bit count of the set so far, [n] the words the ranges
    reach. *)
Lemma List_Set_loop_returns n (rs : CPUList) : ∀ (s : CPUSet) q,
  len s * 64 ≤ q → n ≤ q → q * 64 ^ len rs < uint_modulus →
  Forall (λ r, 0 ≤ r.1 ∧ r.1 ≤ r.2 ∧ r.2 < 64 * n) rs →
  ∃ s', List_Set_loop rs s = Returns s' ∧ len s' * 64 ≤ q * 64 ^ len rs.
Proof.
  induction rs as [|r rs IH]; intros s q Hs Hn Hq Hrs.
  - exists s. split; [reflexivity|]. unfold len at 2. simpl. lia.
  - apply Forall_cons in Hrs as [(Hr0 & Hr1 & Hr2) Hrs].
    assert (Hpow : 64 ^ len (r :: rs) = 64 * 64 ^ len rs).
    { unfold len. simpl length. rewrite Nat2Z.inj_succ, Z.pow_succ_r by lia. reflexivity. }
    assert (Hpos : 0 < 64 ^ len rs) by (apply Z.pow_pos_nonneg; unfold len; lia).
    rewrite Hpow in *.
    assert (Hq0 : 0 ≤ q) by (unfold len in Hs; lia).
    assert (Hqq : q ≤ q * 64 ^ len rs) by nia.
    destruct (AddRange_spec s r.1 r.2) as (s1 & Hadd & Hl1 & _); try (consts; lia).
    assert (Hl1' : len s1 * 64 ≤ 64 * q).
    { rewrite Hl1. unfold AddRange_len. consts.
      assert (r.2 / 64 < n) by (apply Z.div_lt_upper_bound; lia). lia. }
    destruct (IH s1 (64 * q)) as (s' & Hrun & Hl'); try lia; [exact Hrs|].
    exists s'. change (List_Set_loop (r :: rs) s)
      with (s1 ← AddRange s r.1 r.2; List_Set_loop rs s1).
    rewrite Hadd, bind_Returns. split; [exact Hrun|lia].
Qed.

(** The round trip for the sets it works for: those with few enough ranges
    that [len(s) * 64^ranges] is a [uint]. *)
Lemma List_Set_round_trip_small (s : CPUSet) l :
  wf_Set s → Set_List s = Returns l → len s * 64 ^ len l < uint_modulus →
  ∃ s', List_Set l = Returns s' ∧ ∀ cpu, 0 ≤ cpu → IsSet s' cpu = IsSet s cpu.
Proof.
  intros Hwf Hlist Hsmall.
  destruct (Set_List_spec s Hwf) as (l' & Hlist' & Hmin & Hup & _).
  rewrite Hlist in Hlist'. injection Hlist' as <-.
  assert (Hret : ∃ s', List_Set l = Returns s' ∧ len s' * bitsperword < uint_modulus).
  { unfold List_Set. destruct (len l =? 0) eqn:El.
    - exists []. split; [reflexivity|]. vm_compute. reflexivity.
    - destruct (List_Set_loop_returns (len s) (reverse l) [] (len s))
        as (s' & Hrun & Hl'); try (unfold len; simpl; lia).
      + unfold len in *. rewrite length_reverse. exact Hsmall.
      + apply Forall_reverse.
        pose proof (ranges_from_Forall 2 0 l ltac:(lia) Hmin) as Hall.
        apply Forall_forall. intros r Hr. rewrite Forall_forall in Hall, Hup.
        specialize (Hall r Hr). specialize (Hup r Hr). lia.
      + exists s'. split; [exact Hrun|].
        unfold len in *. rewrite length_reverse in Hl'. consts. lia. }
  destruct Hret as (s' & Hset & Hlen'). exists s'. split; [exact Hset|].
  apply (List_Set_round_trip_members s s' l); assumption.
Qed.

(** C1 at a set of twelve separate CPUs.  [Set.List] lists the twelve
    ranges; [List.Set] adds them from the last one down, and every
    [AddRange] after the first multiplies the length of the set by 64
    (claim C3): 1, 64, ..., 64^10 words.  For the twelfth range
    [uint(len(s))*bitsperword] has wrapped to zero, and [set[0:len(s)]]
    panics: there is no set whose membership could be compared. *)
Theorem List_Set_round_trip_panics :
  wf_Set [0xaaaaaa] ∧
  Set_List [0xaaaaaa] =
    Returns [(1, 1); (3, 3); (5, 5); (7, 7); (9, 9); (11, 11);
             (13, 13); (15, 15); (17, 17); (19, 19); (21, 21); (23, 23)] ∧
  List_Set [(1, 1); (3, 3); (5, 5); (7, 7); (9, 9); (11, 11);
            (13, 13); (15, 15); (17, 17); (19, 19); (21, 21); (23, 23)] = Panics.
Proof.
  split; [|split].
  - split; [repeat constructor; consts; lia | vm_compute; reflexivity].
  - vm_compute. reflexivity.
  - unfold List_Set.
    change (len _ =? 0) with false. cbv iota.
    change (reverse _) with
      [(23, 23); (21, 21); (19, 19); (17, 17); (15, 15); (13, 13);
       (11, 11); (9, 9); (7, 7); (5, 5); (3, 3); (1, 1)].
    change (List_Set_loop (?r :: ?rs) ?s)
      with (s' ← AddRange s r.1 r.2; List_Set_loop rs s').
    assert (AddRange [] (23, 23).1 (23, 23).2 = Returns [2 ^ 23]) as ->
      by (vm_compute; reflexivity).
    rewrite bind_Returns. cbv beta.
    apply (List_Set_loop_overflow 10); [lia|reflexivity|simpl; lia|].
    repeat constructor; simpl; lia.
Qed.

(** * Further properties of the package *)

(** ** Set.IsOverlapping and Set.Overlap *)

Lemma land_common_bit w v :
  is_uint w → Z.land w v ≠ 0 ↔ ∃ k, 0 ≤ k < 64 ∧ Z.testbit w k = true ∧ Z.testbit v k = true.
Proof.
  intros Hw. split.
  - intros Hne.
    assert (Hnn : 0 ≤ Z.land w v) by (apply Z.land_nonneg; left; apply Hw).
    assert (Hpos : 0 < Z.land w v) by lia.
    pose proof (Z.bit_log2 _ Hpos) as Hbit.
    rewrite Z.land_spec, andb_true_iff in Hbit. destruct Hbit as [Hbw Hbv].
    exists (Z.log2 (Z.land w v)). split; [|split; assumption].
    split; [apply Z.log2_nonneg|].
    destruct (decide (Z.log2 (Z.land w v) < 64)) as [|Hge]; [assumption|exfalso].
    destruct (decide (w = 0)) as [->|Hw0]; [rewrite Z.bits_0 in Hbw; discriminate|].
    rewrite Z.bits_above_log2 in Hbw; [discriminate|apply Hw|].
    assert (0 ≤ Z.log2 w < 64) by (apply uint_log2; unfold is_uint in Hw; lia). lia.
  - intros (k & Hk & Hbw & Hbv) Hz.
    assert (Hbit : Z.testbit (Z.land w v) k = true)
      by (rewrite Z.land_spec, Hbw, Hbv; reflexivity).
    rewrite Hz, Z.bits_0 in Hbit. discriminate.
Qed.

Lemma Set_IsOverlapping_loop_spec (s another : CPUSet) : ∀ todo idx,
  0 ≤ idx → idx + Z.of_nat todo ≤ Z.min (len s) (len another) →
  ∃ b, Set_IsOverlapping_loop todo idx s another = Returns b ∧
       (b = true ↔ ∃ (j : nat) w v, idx ≤ Z.of_nat j < idx + Z.of_nat todo ∧
                     s !! j = Some w ∧ another !! j = Some v ∧ Z.land w v ≠ 0).
Proof.
  induction todo as [|todo IH]; intros idx H0 Hle.
  - exists false. split; [reflexivity|]. split; [discriminate|].
    intros (j & w & v & Hj & _). lia.
  - simpl. destruct (lookup_word s idx) as [w Hw]; [lia|].
    destruct (lookup_word another idx) as [v Hv]; [lia|].
    unfold word_at. rewrite Hw, Hv. simpl.
    destruct (Z.eqb_spec (Z.land w v) 0) as [Hz|Hnz]; simpl.
    + destruct (IH (idx + 1)) as (b & Hrun & Hb); [lia|lia|].
      exists b. split; [exact Hrun|]. rewrite Hb. split.
      * intros (j & w' & v' & Hj & Hrest). exists j, w', v'. split; [lia|exact Hrest].
      * intros (j & w' & v' & Hj & Hw' & Hv' & Hne).
        destruct (decide (Z.of_nat j = idx)) as [E|E].
        -- rewrite <- E, Nat2Z.id in Hw, Hv. congruence.
        -- exists j, w', v'. split; [lia|auto].
    + exists true. split; [reflexivity|]. split; [intros _|reflexivity].
      exists (Z.to_nat idx), w, v. split; [lia|auto].
Qed.

Lemma Set_Overlap_loop_spec (s another : CPUSet) : ∀ todo idx overlap,
  0 ≤ idx → idx + Z.of_nat todo ≤ Z.min (len s) (len another) →
  idx + Z.of_nat todo ≤ len overlap →
  ∃ ov, Set_Overlap_loop todo idx s another overlap = Returns ov ∧
        length ov = length overlap ∧
        ∀ (j : nat), ov !! j =
          if decide (idx ≤ Z.of_nat j < idx + Z.of_nat todo)
          then (w ← s !! j; v ← another !! j; Some (Z.land w v))
          else overlap !! j.
Proof.
  induction todo as [|todo IH]; intros idx overlap H0 Hle Hov.
  - exists overlap. split; [reflexivity|]. split; [reflexivity|].
    intros j. rewrite decide_False by lia. reflexivity.
  - simpl. destruct (lookup_word s idx) as [w Hw]; [lia|].
    destruct (lookup_word another idx) as [v Hv]; [lia|].
    destruct (lookup_word overlap idx) as [o Ho]; [lia|].
    unfold word_at. rewrite Hw, Hv, Ho. simpl.
    destruct (IH (idx + 1) (<[Z.to_nat idx := Z.land w v]> overlap))
      as (ov & Hrun & Hl & Hget); [lia|lia|unfold len in *; rewrite length_insert; lia|].
    exists ov. split; [exact Hrun|]. split; [rewrite Hl; apply length_insert|].
    intros j. rewrite Hget.
    destruct (decide (Z.of_nat j = idx)) as [E|E].
    + rewrite decide_False by lia. rewrite decide_True by lia.
      rewrite <- E, Nat2Z.id in *. rewrite list_lookup_insert_eq, Hw, Hv; [reflexivity|].
      eapply lookup_lt_Some; eauto.
    + case_decide; [rewrite decide_True by lia; reflexivity|].
      rewrite decide_False by lia. apply list_lookup_insert_ne. lia.
Qed.

(** [Set.Overlap] is the word-wise AND of the common prefix. *)
Lemma Set_Overlap_zip (s another : CPUSet) :
  Set_Overlap s another = Returns (zip_with Z.land s another).
Proof.
  unfold Set_Overlap.
  destruct (Set_Overlap_loop_spec s another
              (Z.to_nat (Z.min (len s) (len another))) 0
              (make (Z.min (len s) (len another))))
    as (ov & Hrun & Hl & Hget).
  - lia.
  - unfold len. lia.
  - unfold make, len. rewrite length_replicate. lia.
  - rewrite Hrun. f_equal. apply list_eq. intros j.
    rewrite Hget, lookup_zip_with.
    unfold make, len in *. case_decide as Hj.
    + reflexivity.
    + assert (Hout : (length s ≤ j ∨ length another ≤ j)%nat) by lia.
      rewrite (lookup_ge_None_2 (replicate _ _)) by (rewrite length_replicate; lia).
      destruct Hout as [Hout|Hout].
      * rewrite (lookup_ge_None_2 s) by exact Hout. reflexivity.
      * rewrite (lookup_ge_None_2 another) by exact Hout.
        destruct (s !! j); reflexivity.
Qed.

Lemma is_uint_bits n : 0 ≤ n → is_uint n ↔ ∀ l, 64 ≤ l → Z.testbit n l = false.
Proof.
  intros Hn. unfold is_uint, uint_modulus.
  rewrite <- (Z.bounded_iff_bits_nonneg 64 n) by lia. lia.
Qed.

Lemma is_uint_land w v : is_uint w → is_uint (Z.land w v).
Proof.
  intros Hw. assert (H0 : 0 ≤ w) by apply Hw.
  apply is_uint_bits; [apply Z.land_nonneg; left; exact H0|].
  intros l Hl. rewrite Z.land_spec.
  rewrite (proj1 (is_uint_bits w H0) Hw l Hl). reflexivity.
Qed.

Lemma is_uint_lor w v : is_uint w → is_uint v → is_uint (Z.lor w v).
Proof.
  intros Hw Hv. assert (H0 : 0 ≤ w) by apply Hw. assert (H1 : 0 ≤ v) by apply Hv.
  apply is_uint_bits; [apply Z.lor_nonneg; split; assumption|].
  intros l Hl. rewrite Z.lor_spec.
  rewrite (proj1 (is_uint_bits w H0) Hw l Hl), (proj1 (is_uint_bits v H1) Hv l Hl).
  reflexivity.
Qed.

Lemma bit_of_zip_land (s another : CPUSet) c :
  bit_of (zip_with Z.land s another) c = bit_of s c && bit_of another c.
Proof.
  unfold bit_of. rewrite lookup_zip_with.
  destruct (s !! Z.to_nat (c / 64)) as [w|]; simpl; [|reflexivity].
  destruct (another !! Z.to_nat (c / 64)) as [v|]; simpl.
  - apply Z.land_spec.
  - rewrite andb_false_r. reflexivity.
Qed.

Lemma wf_Set_zip_land (s another : CPUSet) :
  wf_Set s → wf_Set (zip_with Z.land s another).
Proof.
  intros [Hw Hl]. split.
  - apply Forall_lookup. intros j x Hx.
    rewrite lookup_zip_with in Hx.
    destruct (s !! j) as [w|] eqn:Hs; simpl in Hx; [|discriminate].
    destruct (another !! j) as [v|]; simpl in Hx; [|discriminate].
    injection Hx as <-. apply is_uint_land. eapply Forall_lookup_1; eauto.
  - unfold len in *. rewrite length_zip_with. consts. lia.
Qed.

(** X1.  Two well-formed sets overlap, as [Set.IsOverlapping] reports it,
    exactly when some CPU is a member of both; the loop never indexes out
    of range. *)
Theorem Set_IsOverlapping_common_member (s another : CPUSet) :
  wf_Set s → wf_Set another →
  ∃ b, Set_IsOverlapping s another = Returns b ∧
       (b = true ↔ ∃ cpu, 0 ≤ cpu ∧ IsSet s cpu = true ∧ IsSet another cpu = true).
Proof.
  intros Hs Ha. unfold Set_IsOverlapping.
  destruct (Set_IsOverlapping_loop_spec s another
              (Z.to_nat (Z.min (len s) (len another))) 0) as (b & Hrun & Hb).
  { lia. }
  { unfold len. lia. }
  exists b. split; [exact Hrun|]. rewrite Hb. split.
  - intros (j & w & v & _ & Hw & Hv & Hne).
    apply land_common_bit in Hne as (k & Hk & Hbw & Hbv).
    2:{ destruct Hs as [Hs _]. eapply Forall_lookup_1; eauto. }
    exists (64 * Z.of_nat j + k). split; [lia|].
    rewrite !IsSet_bit_of by (apply Hs || apply Ha || lia).
    rewrite (bit_of_lookup s j w k Hw Hk), (bit_of_lookup another j v k Hv Hk). auto.
  - intros (cpu & Hcpu & Hms & Hma).
    rewrite IsSet_bit_of in Hms, Hma by (apply Hs || apply Ha || lia).
    destruct (bit_of_true s cpu Hcpu Hms) as (w & Hw & Hbw).
    destruct (bit_of_true another cpu Hcpu Hma) as (v & Hv & Hbv).
    assert (Hk : 0 ≤ cpu mod 64 < 64) by (apply Z.mod_pos_bound; lia).
    exists (Z.to_nat (cpu / 64)), w, v.
    pose proof (lookup_lt_Some _ _ _ Hw). pose proof (lookup_lt_Some _ _ _ Hv).
    split; [unfold len; lia|]. split; [exact Hw|]. split; [exact Hv|].
    apply land_common_bit; [destruct Hs as [Hs _]; eapply Forall_lookup_1; eauto|].
    exists (cpu mod 64). auto.
Qed.

Lemma Set_IsOverlapping_common_member_witness :
  ∃ b, Set_IsOverlapping [6; 1] [12] = Returns b ∧
       (b = true ↔ ∃ cpu, 0 ≤ cpu ∧ IsSet [6; 1] cpu = true ∧ IsSet [12] cpu = true).
Proof.
  apply (Set_IsOverlapping_common_member [6; 1] [12]).
  - split; [repeat constructor; consts; lia | vm_compute; reflexivity].
  - split; [repeat constructor; consts; lia | vm_compute; reflexivity].
Defined.

(** X2.  [Set.Overlap] returns a well-formed set as long as the shorter
    operand, whose members are the CPUs that are members of both. *)
Theorem Set_Overlap_members (s another : CPUSet) :
  wf_Set s → wf_Set another →
  ∃ overlap, Set_Overlap s another = Returns overlap ∧
             len overlap = Z.min (len s) (len another) ∧
             wf_Set overlap ∧
             ∀ cpu, 0 ≤ cpu → IsSet overlap cpu = IsSet s cpu && IsSet another cpu.
Proof.
  intros Hs Ha. exists (zip_with Z.land s another).
  pose proof (wf_Set_zip_land s another Hs) as Hov.
  split; [apply Set_Overlap_zip|]. split; [unfold len; rewrite length_zip_with; lia|].
  split; [exact Hov|]. intros cpu Hcpu.
  rewrite !IsSet_bit_of by (apply Hs || apply Ha || apply Hov || lia).
  apply bit_of_zip_land.
Qed.

Lemma Set_Overlap_members_witness :
  ∃ overlap, Set_Overlap [6; 1] [12] = Returns overlap ∧
             len overlap = Z.min (len [6; 1]) (len [12]) ∧
             wf_Set overlap ∧
             ∀ cpu, 0 ≤ cpu → IsSet overlap cpu = IsSet [6; 1] cpu && IsSet [12] cpu.
Proof.
  apply (Set_Overlap_members [6; 1] [12]).
  - split; [repeat constructor; consts; lia | vm_compute; reflexivity].
  - split; [repeat constructor; consts; lia | vm_compute; reflexivity].
Defined.

Lemma Set_IsOverlapping_loop_sym (s another : CPUSet) : ∀ todo idx,
  Set_IsOverlapping_loop todo idx s another = Set_IsOverlapping_loop todo idx another s.
Proof.
  induction todo as [|todo IH]; intros idx; [reflexivity|]. simpl.
  unfold word_at.
  destruct (s !! Z.to_nat idx) as [w|], (another !! Z.to_nat idx) as [v|]; simpl; try reflexivity.
  rewrite (Z.land_comm v w), IH. reflexivity.
Qed.

(** X3.  Both set operations are symmetric in their operands, and the
    overlap of a set with itself is the set, for all slices of words. *)
Theorem Set_Overlap_symmetric (s another : CPUSet) :
  Set_Overlap s another = Set_Overlap another s ∧
  Set_IsOverlapping s another = Set_IsOverlapping another s ∧
  Set_Overlap s s = Returns s.
Proof.
  split; [|split].
  - rewrite !Set_Overlap_zip. f_equal. apply list_eq. intros j.
    rewrite !lookup_zip_with.
    destruct (s !! j) as [w|], (another !! j) as [v|]; simpl; try reflexivity.
    rewrite Z.land_comm. reflexivity.
  - unfold Set_IsOverlapping. rewrite Z.min_comm. apply Set_IsOverlapping_loop_sym.
  - rewrite Set_Overlap_zip. f_equal. apply list_eq. intros j.
    rewrite lookup_zip_with. destruct (s !! j) as [w|]; simpl; [|reflexivity].
    rewrite Z.land_diag. reflexivity.
Qed.

(** X4.  [Set.IsOverlapping] answers whether [Set.Overlap] has a member. *)
Theorem Set_IsOverlapping_iff_Overlap (s another : CPUSet) :
  wf_Set s → wf_Set another →
  ∃ b overlap,
    Set_IsOverlapping s another = Returns b ∧
    Set_Overlap s another = Returns overlap ∧
    (b = true ↔ ∃ cpu, 0 ≤ cpu ∧ IsSet overlap cpu = true).
Proof.
  intros Hs Ha.
  destruct (Set_Overlap_members s another Hs Ha) as (ov & Hov & _ & _ & Hmem).
  unfold Set_IsOverlapping.
  destruct (Set_IsOverlapping_loop_spec s another
              (Z.to_nat (Z.min (len s) (len another))) 0) as (b & Hrun & Hb);
    [lia|unfold len; lia|].
  exists b, ov. split; [exact Hrun|]. split; [exact Hov|].
  pose proof (wf_Set_zip_land s another Hs) as Hwf.
  rewrite Set_Overlap_zip in Hov. injection Hov as <-.
  rewrite Hb. split.
  - intros (j & w & v & _ & Hw & Hv & Hne).
    assert (Hu : is_uint (Z.land w v)).
    { apply is_uint_land. destruct Hs as [Hs _]. eapply Forall_lookup_1; eauto. }
    destruct (uint_has_set_bit _ Hu Hne) as (k & Hk & Hbit).
    exists (64 * Z.of_nat j + k). split; [lia|].
    rewrite IsSet_bit_of by (apply Hwf || lia).
    rewrite (bit_of_lookup _ j (Z.land w v) k); [exact Hbit| |exact Hk].
    rewrite lookup_zip_with, Hw, Hv. reflexivity.
  - intros (cpu & Hcpu & Hm).
    rewrite IsSet_bit_of in Hm by (apply Hwf || lia).
    destruct (bit_of_true _ cpu Hcpu Hm) as (x & Hx & Hbx).
    rewrite lookup_zip_with in Hx.
    destruct (s !! Z.to_nat (cpu / 64)) as [w|] eqn:Hw; simpl in Hx; [|discriminate].
    destruct (another !! Z.to_nat (cpu / 64)) as [v|] eqn:Hv; simpl in Hx; [|discriminate].
    injection Hx as <-.
    pose proof (lookup_lt_Some _ _ _ Hw). pose proof (lookup_lt_Some _ _ _ Hv).
    exists (Z.to_nat (cpu / 64)), w, v.
    split; [unfold len; lia|]. split; [exact Hw|]. split; [exact Hv|].
    intros Hz. rewrite Hz, Z.bits_0 in Hbx. discriminate.
Qed.

Lemma Set_IsOverlapping_iff_Overlap_witness :
  ∃ b overlap,
    Set_IsOverlapping [6; 1] [12] = Returns b ∧
    Set_Overlap [6; 1] [12] = Returns overlap ∧
    (b = true ↔ ∃ cpu, 0 ≤ cpu ∧ IsSet overlap cpu = true).
Proof.
  apply (Set_IsOverlapping_iff_Overlap [6; 1] [12]).
  - split; [repeat constructor; consts; lia | vm_compute; reflexivity].
  - split; [repeat constructor; consts; lia | vm_compute; reflexivity].
Defined.

(** ** List.Overlap and List.IsOverlapping as set operations *)

Lemma List_Overlap_loop_spec (n : nat) : ∀ (a b : CPUList) la lb,
  (length a + length b ≤ n)%nat → ranges_from 1 la a → ranges_from 1 lb b →
  ranges_from 1 (Z.max la lb) (List_Overlap_loop a b []) ∧
  ∀ p, covers (List_Overlap_loop a b []) p ↔ covers a p ∧ covers b p.
Proof.
  induction n as [|n IH]; intros a b la lb Hn Ha Hb.
  - destruct a; [|simpl in Hn; lia]. destruct b; [|simpl in Hn; lia].
    simpl. split; [exact I|]. intros p. unfold covers. rewrite Exists_nil. tauto.
  - destruct a as [|r1 a'].
    { simpl. split; [exact I|]. intros p. unfold covers. rewrite Exists_nil. tauto. }
    destruct b as [|r2 b'].
    { rewrite List_Overlap_loop_nil_r. split; [exact I|].
      intros p. unfold covers. rewrite !Exists_nil. tauto. }
    pose proof Ha as Ha0. pose proof Hb as Hb0.
    simpl in Ha, Hb, Hn.
    destruct Ha as (Ha1 & Ha2 & Ha3 & Ha'), Hb as (Hb1 & Hb2 & Hb3 & Hb').
    assert (Hlowa : ∀ p, covers a' p → r1.2 + 1 ≤ p)
      by (intros p; apply (ranges_from_lower 1); [lia|exact Ha']).
    assert (Hlowb : ∀ p, covers b' p → r2.2 + 1 ≤ p)
      by (intros p; apply (ranges_from_lower 1); [lia|exact Hb']).
    rewrite List_Overlap_loop_cons. cbv zeta.
    destruct (Z.gtb_spec r2.2 r1.2) as [Hadv|Hadv].
    + destruct (IH a' (r2 :: b') (r1.2 + 1) lb ltac:(simpl; lia) Ha' Hb0) as [Hcan Hcov].
      rewrite List_Overlap_loop_acc.
      destruct ((r2.1 <=? r1.2) && (r1.1 <=? r2.2)) eqn:Hov.
      * apply andb_true_iff in Hov as [H1%Z.leb_le H2%Z.leb_le]. simpl app. split.
        -- simpl. split_and!; try lia.
           eapply ranges_from_weaken; [|exact Hcan]. lia.
        -- intros p. rewrite covers_cons, Hcov, !covers_cons. unfold in_range. simpl.
           split.
           ++ intros [Hp|[Hp1 Hp2]]; [split; left; lia|split; [right; exact Hp1|exact Hp2]].
           ++ intros [[Hp1|Hp1] [Hp2|Hp2]].
              ** left. lia.
              ** apply Hlowb in Hp2. lia.
              ** right. split; [exact Hp1|left; exact Hp2].
              ** right. split; [exact Hp1|right; exact Hp2].
      * apply andb_false_iff in Hov. simpl app. split.
        -- eapply ranges_from_weaken; [|exact Hcan]. lia.
        -- intros p. rewrite Hcov, !covers_cons. unfold in_range. split.
           ++ intros [Hp1 Hp2]. split; [right; exact Hp1|exact Hp2].
           ++ intros [[Hp1|Hp1] [Hp2|Hp2]].
              ** exfalso. destruct Hov as [Hov%Z.leb_gt|Hov%Z.leb_gt]; lia.
              ** apply Hlowb in Hp2. lia.
              ** split; [exact Hp1|left; exact Hp2].
              ** split; [exact Hp1|right; exact Hp2].
    + destruct (IH (r1 :: a') b' la (r2.2 + 1) ltac:(simpl; lia) Ha0 Hb') as [Hcan Hcov].
      rewrite List_Overlap_loop_acc.
      destruct ((r2.1 <=? r1.2) && (r1.1 <=? r2.2)) eqn:Hov.
      * apply andb_true_iff in Hov as [H1%Z.leb_le H2%Z.leb_le]. simpl app. split.
        -- simpl. split_and!; try lia.
           eapply ranges_from_weaken; [|exact Hcan]. lia.
        -- intros p. rewrite covers_cons, Hcov, !covers_cons. unfold in_range. simpl.
           split.
           ++ intros [Hp|[Hp1 Hp2]]; [split; left; lia|split; [exact Hp1|right; exact Hp2]].
           ++ intros [[Hp1|Hp1] [Hp2|Hp2]].
              ** left. lia.
              ** right. split; [left; exact Hp1|exact Hp2].
              ** apply Hlowa in Hp1. lia.
              ** right. split; [right; exact Hp1|exact Hp2].
      * apply andb_false_iff in Hov. simpl app. split.
        -- eapply ranges_from_weaken; [|exact Hcan]. lia.
        -- intros p. rewrite Hcov, !covers_cons. unfold in_range. split.
           ++ intros [Hp1 Hp2]. split; [exact Hp1|right; exact Hp2].
           ++ intros [[Hp1|Hp1] [Hp2|Hp2]].
              ** exfalso. destruct Hov as [Hov%Z.leb_gt|Hov%Z.leb_gt]; lia.
              ** split; [left; exact Hp1|exact Hp2].
              ** apply Hlowa in Hp1. lia.
              ** split; [right; exact Hp1|exact Hp2].
Qed.

(** X5.  On canonical lists [List.Overlap] is the intersection: its result is
    canonical, and a CPU is in it exactly when it is in both lists. *)
Theorem List_Overlap_intersection (a b : CPUList) :
  canonical a → canonical b →
  canonical (List_Overlap a b) ∧
  ∀ cpu, covers (List_Overlap a b) cpu ↔ covers a cpu ∧ covers b cpu.
Proof.
  intros Ha Hb.
  destruct (List_Overlap_loop_spec (length a + length b) a b 0 0 ltac:(lia) Ha Hb)
    as [Hcan Hcov].
  split; [exact Hcan|exact Hcov].
Qed.

Lemma List_Overlap_intersection_witness :
  canonical (List_Overlap [(1, 5); (9, 9)] [(3, 9)]) ∧
  ∀ cpu, covers (List_Overlap [(1, 5); (9, 9)] [(3, 9)]) cpu
         ↔ covers [(1, 5); (9, 9)] cpu ∧ covers [(3, 9)] cpu.
Proof.
  apply (List_Overlap_intersection [(1, 5); (9, 9)] [(3, 9)]).
  - unfold canonical. simpl. consts. lia.
  - unfold canonical. simpl. consts. lia.
Defined.

(** X6.  On canonical lists [List.IsOverlapping] is true exactly when the two
    lists have a CPU in common. *)
Theorem List_IsOverlapping_common_cpu (a b : CPUList) :
  canonical a → canonical b →
  List_IsOverlapping a b = true ↔ ∃ cpu, covers a cpu ∧ covers b cpu.
Proof.
  intros Ha Hb.
  rewrite (List_IsOverlapping_aux (length a + length b) a b 0 0 ltac:(lia) Ha Hb).
  destruct (List_Overlap_loop_spec (length a + length b) a b 0 0 ltac:(lia) Ha Hb)
    as [Hcan Hcov].
  destruct (List_Overlap_loop a b []) as [|r rs].
  - split; [congruence|]. intros (cpu & Hcpu). apply Hcov in Hcpu. inversion Hcpu.
  - split; [intros _|discriminate].
    exists r.1. apply Hcov, covers_cons. left.
    simpl in Hcan. unfold in_range. lia.
Qed.

Lemma List_IsOverlapping_common_cpu_witness :
  List_IsOverlapping [(1, 5); (9, 9)] [(3, 9)] = true
  ↔ ∃ cpu, covers [(1, 5); (9, 9)] cpu ∧ covers [(3, 9)] cpu.
Proof.
  apply (List_IsOverlapping_common_cpu [(1, 5); (9, 9)] [(3, 9)]).
  - unfold canonical. simpl. consts. lia.
  - unfold canonical. simpl. consts. lia.
Defined.

(** ** Remove, again and after Set.List *)

(** X7.  [Remove] takes exactly one CPU off a canonical list, and a second
    [Remove] on what remains returns a larger CPU: drained by [Remove], a
    list gives up its CPUs one by one in increasing order. *)
Theorem List_Remove_twice (l : CPUList) cpu remaining :
  canonical l → List_Remove l = Returns (cpu, remaining) →
  List_count remaining = List_count l - 1 ∧
  canonical remaining ∧
  ∀ cpu' remaining', List_Remove remaining = Returns (cpu', remaining') → cpu < cpu'.
Proof.
  intros Hcan Hrem. destruct l as [|[f t] rest]; [discriminate|].
  unfold canonical in Hcan. simpl in Hcan. destruct Hcan as (H0 & Hle & Hto & Hrest).
  unfold List_Remove in Hrem. simpl fst in Hrem. simpl snd in Hrem.
  destruct (Z.ltb_spec f t) as [Hlt|Hge].
  - rewrite wrap_small in Hrem by lia. injection Hrem as <- <-.
    split; [simpl; lia|]. split.
    + unfold canonical. simpl. split_and!; try lia. exact Hrest.
    + intros cpu' rem'. simpl.
      destruct (f + 1 <? t); intros [= <- _]; lia.
  - injection Hrem as <- <-. assert (f = t) by lia. subst t.
    split; [simpl; lia|]. split.
    + apply (ranges_from_weaken 1 (f + 1)); [lia|exact Hrest].
    + intros cpu' rem' Hrem'. destruct rest as [|[f' t'] rest']; [discriminate|].
      simpl in Hrest. unfold List_Remove in Hrem'. simpl fst in Hrem'. simpl snd in Hrem'.
      destruct (f' <? t'); injection Hrem' as <- _; lia.
Qed.

Lemma List_Remove_twice_witness :
  List_count [(2, 3); (7, 9)] = List_count [(1, 3); (7, 9)] - 1 ∧
  canonical [(2, 3); (7, 9)] ∧
  ∀ cpu' remaining',
    List_Remove [(2, 3); (7, 9)] = Returns (cpu', remaining') → 1 < cpu'.
Proof.
  apply (List_Remove_twice [(1, 3); (7, 9)] 1 [(2, 3); (7, 9)]).
  - unfold canonical. simpl. consts. lia.
  - reflexivity.
Defined.

(** X8.  [s.List().Remove()], the way the package picks a CPU from an
    affinity mask: for a well-formed set with a member it returns the lowest
    member of the set; for a set without members [List] returns the empty
    list and [Remove] panics. *)
Theorem Set_List_Remove_lowest (s : CPUSet) :
  wf_Set s →
  ∃ l, Set_List s = Returns l ∧
       ((empty_Set s ∧ l = [] ∧ List_Remove l = Panics)
        ∨ (∃ cpu remaining,
             List_Remove l = Returns (cpu, remaining) ∧
             0 ≤ cpu ∧ IsSet s cpu = true ∧
             ∀ c, 0 ≤ c → IsSet s c = true → cpu ≤ c)).
Proof.
  intros Hwf.
  destruct (Set_List_spec s Hwf) as (l & Hrun & Hmin & _ & Hcov).
  exists l. split; [exact Hrun|].
  assert (Hmem : ∀ c, 0 ≤ c → IsSet s c = true ↔ covers l c).
  { intros c Hc. rewrite IsSet_bit_of by (apply Hwf || exact Hc). apply Hcov, Hc. }
  destruct l as [|[f t] rest].
  - left. split; [|split; reflexivity].
    intros c Hc. destruct (IsSet s c) eqn:E; [|reflexivity].
    apply Hmem in E; [inversion E|exact Hc].
  - right. unfold minimal in Hmin. simpl in Hmin. destruct Hmin as (H0 & Hle & Hto & Hrest).
    assert (Hlow : ∀ c, covers ((f, t) :: rest) c → f ≤ c).
    { intros c [Hc|Hc]%covers_cons; [unfold in_range in Hc; simpl in Hc; lia|].
      apply (ranges_from_lower 2 (t + 2)) in Hc; [lia|lia|exact Hrest]. }
    assert (Hf : IsSet s f = true).
    { apply Hmem; [lia|]. apply covers_cons. left. unfold in_range. simpl. lia. }
    unfold List_Remove. simpl fst. simpl snd.
    destruct (f <? t); eexists _, _; (split; [reflexivity|]);
      (split; [exact H0|]); (split; [exact Hf|]);
      intros c Hc Hm; apply Hlow, Hmem; assumption.
Qed.

Lemma Set_List_Remove_lowest_witness :
  ∃ l, Set_List [0; 12] = Returns l ∧
       ((empty_Set [0; 12] ∧ l = [] ∧ List_Remove l = Panics)
        ∨ (∃ cpu remaining,
             List_Remove l = Returns (cpu, remaining) ∧
             0 ≤ cpu ∧ IsSet [0; 12] cpu = true ∧
             ∀ c, 0 ≤ c → IsSet [0; 12] c = true → cpu ≤ c)).
Proof.
  apply (Set_List_Remove_lowest [0; 12]).
  split; [repeat constructor; consts; lia | vm_compute; reflexivity].
Defined.

(** ** The two conversions together *)

(** A set of CPUs has one minimal range list. *)
Lemma minimal_unique (l1 : CPUList) : ∀ (l2 : CPUList) lo1 lo2,
  ranges_from 2 lo1 l1 → ranges_from 2 lo2 l2 →
  (∀ p, covers l1 p ↔ covers l2 p) → l1 = l2.
Proof.
  induction l1 as [|[f1 t1] l1 IH]; intros l2 lo1 lo2 H1 H2 Hsame.
  - destruct l2 as [|[f2 t2] l2]; [reflexivity|exfalso].
    simpl in H2. assert (Hc : covers ((f2, t2) :: l2) f2).
    { apply covers_cons. left. unfold in_range. simpl. lia. }
    apply Hsame in Hc. inversion Hc.
  - destruct l2 as [|[f2 t2] l2].
    { exfalso. simpl in H1. assert (Hc : covers ((f1, t1) :: l1) f1).
      { apply covers_cons. left. unfold in_range. simpl. lia. }
      apply Hsame in Hc. inversion Hc. }
    simpl in H1, H2.
    destruct H1 as (Ha1 & Ha2 & Ha3 & H1), H2 as (Hb1 & Hb2 & Hb3 & H2).
    assert (Hlow1 : ∀ p, covers l1 p → t1 + 2 ≤ p)
      by (intros p; apply (ranges_from_lower 2); [lia|exact H1]).
    assert (Hlow2 : ∀ p, covers l2 p → t2 + 2 ≤ p)
      by (intros p; apply (ranges_from_lower 2); [lia|exact H2]).
    assert (Hin : ∀ p, (f1 ≤ p ≤ t1 ∨ covers l1 p) ↔ (f2 ≤ p ≤ t2 ∨ covers l2 p)).
    { intros p. specialize (Hsame p). rewrite !covers_cons in Hsame. exact Hsame. }
    assert (Hf : f1 = f2).
    { destruct (proj1 (Hin f1) ltac:(left; lia)) as [?|Hc]; [|apply Hlow2 in Hc];
      destruct (proj2 (Hin f2) ltac:(left; lia)) as [?|Hc']; try apply Hlow1 in Hc'; lia. }
    subst f2.
    assert (Ht : t1 = t2).
    { destruct (Z.lt_trichotomy t1 t2) as [Hlt|[?|Hgt]]; [exfalso|assumption|exfalso].
      - destruct (proj2 (Hin (t1 + 1)) ltac:(left; lia)) as [?|Hc]; [lia|].
        apply Hlow1 in Hc. lia.
      - destruct (proj1 (Hin (t2 + 1)) ltac:(left; lia)) as [?|Hc]; [lia|].
        apply Hlow2 in Hc. lia. }
    subst t2. f_equal.
    apply (IH l2 (t1 + 2) (t1 + 2) H1 H2).
    intros p. split; intros Hc.
    + pose proof (Hlow1 p Hc). destruct (proj1 (Hin p) ltac:(right; exact Hc)); [lia|assumption].
    + pose proof (Hlow2 p Hc). destruct (proj2 (Hin p) ltac:(right; exact Hc)); [lia|assumption].
Qed.

(** X9.  [Set.List] depends on the members of the set only: two
    well-formed sets with the same members, whatever their lengths and
    trailing zero words, convert to the same list. *)
Theorem Set_List_of_members (s1 s2 : CPUSet) :
  wf_Set s1 → wf_Set s2 →
  (∀ cpu, 0 ≤ cpu → IsSet s1 cpu = IsSet s2 cpu) →
  Set_List s1 = Set_List s2.
Proof.
  intros Hwf1 Hwf2 Hsame.
  destruct (Set_List_spec s1 Hwf1) as (l1 & Hrun1 & Hmin1 & _ & Hcov1).
  destruct (Set_List_spec s2 Hwf2) as (l2 & Hrun2 & Hmin2 & _ & Hcov2).
  rewrite Hrun1, Hrun2. f_equal.
  apply (minimal_unique l1 l2 0 0 Hmin1 Hmin2).
  assert (Hnn : ∀ (l : CPUList) p, minimal l → covers l p → 0 ≤ p)
    by (intros l p Hl; apply (ranges_from_lower 2); [lia|exact Hl]).
  intros p. split; intros Hc.
  - pose proof (Hnn _ _ Hmin1 Hc) as Hp. apply Hcov2; [exact Hp|].
    rewrite <- IsSet_bit_of, <- Hsame, IsSet_bit_of by (apply Hwf1 || apply Hwf2 || exact Hp).
    apply Hcov1; assumption.
  - pose proof (Hnn _ _ Hmin2 Hc) as Hp. apply Hcov1; [exact Hp|].
    rewrite <- IsSet_bit_of, Hsame, IsSet_bit_of by (apply Hwf1 || apply Hwf2 || exact Hp).
    apply Hcov2; assumption.
Qed.

Lemma Set_List_of_members_witness : Set_List [6; 1] = Set_List [6; 1; 0; 0].
Proof.
  apply (Set_List_of_members [6; 1] [6; 1; 0; 0]).
  - split; [repeat constructor; consts; lia | vm_compute; reflexivity].
  - split; [repeat constructor; consts; lia | vm_compute; reflexivity].
  - intros cpu Hcpu.
    rewrite !IsSet_bit_of by (vm_compute; reflexivity || exact Hcpu).
    symmetry. apply (bit_of_app_zeros [6; 1] 2 cpu).
Defined.

(** *** AddRange keeps words in range, and its results are never empty *)

Lemma AddRange_loop_uint fuel : ∀ (set set' : CPUSet) cpu to,
  Forall is_uint set → AddRange_loop fuel set cpu to = Returns set' →
  Forall is_uint set'.
Proof.
  induction fuel as [|fuel IH]; intros set set' cpu to Hset; simpl.
  - destruct (cpu <=? to); [discriminate|]. intros [= <-]. exact Hset.
  - destruct (cpu <=? to); [|intros [= <-]; exact Hset].
    unfold word_at. destruct (set !! Z.to_nat (setBitIndex cpu)) as [w|] eqn:Hw;
      simpl; [|discriminate].
    apply IH. apply Forall_insert; [exact Hset|].
    apply is_uint_lor; [eapply Forall_lookup_1; eauto|].
    unfold setBitMask. apply wrap_is_uint.
Qed.

Lemma AddRange_uint (s set : CPUSet) from to :
  Forall is_uint s → AddRange s from to = Returns set → Forall is_uint set.
Proof.
  intros Hs. unfold AddRange.
  destruct (from >? to); [discriminate|].
  destruct (len s >? _); [discriminate|].
  apply AddRange_loop_uint.
  assert (Hz : ∀ n, Forall is_uint (make n)).
  { intros n. unfold make. apply Forall_replicate. unfold is_uint. consts. lia. }
  apply Forall_app. split; [|apply Forall_drop, Hz].
  unfold copy. apply Forall_app. split; [apply Forall_take, Hs|].
  apply Forall_drop, Forall_take, Hz.
Qed.

Lemma AddRange_nonempty (s set : CPUSet) from to :
  AddRange s from to = Returns set → set ≠ [].
Proof.
  unfold AddRange. destruct (Z.gtb_spec from to) as [|Hle]; [discriminate|].
  destruct (len s >? _); [discriminate|].
  set (set0 := copy _ s ++ drop _ _).
  intros Hrun. pose proof (AddRange_loop_length _ _ _ _ _ Hrun) as Hl.
  destruct (Z.to_nat (to - from + 2)) as [|fuel] eqn:Ef; [lia|].
  simpl in Hrun. rewrite (proj2 (Z.leb_le _ _) Hle) in Hrun.
  unfold word_at in Hrun.
  destruct (set0 !! Z.to_nat (setBitIndex from)) as [w|] eqn:Hw; [|discriminate].
  apply lookup_lt_Some in Hw. intros ->. simpl in Hl. lia.
Qed.

Lemma List_Set_loop_uint (rs : CPUList) : ∀ (s s' : CPUSet),
  Forall is_uint s → List_Set_loop rs s = Returns s' → Forall is_uint s'.
Proof.
  induction rs as [|r rs IH]; intros s s' Hs; simpl.
  - intros [= <-]. exact Hs.
  - destruct (AddRange s r.1 r.2) as [s1| |] eqn:Hadd; simpl; try discriminate.
    apply IH. eapply AddRange_uint; eauto.
Qed.



(** X11.  A set that [AddRange] returned is never turned away by
    [SetAffinity]'s length check: [PinTask] hands it to the kernel in one
    call, as it is. *)
Theorem PinTask_after_AddRange (os : rawcall → Z) (s set : CPUSet) from to tid :
  AddRange s from to = Returns set →
  (PinTask os set tid).1 =
    [RawCall SYS_SCHED_SETAFFINITY tid (wrap (len set * wordbytesize)) set].
Proof.
  intros Hrun. apply AddRange_nonempty in Hrun.
  unfold PinTask, SetAffinity.
  assert ((len set =? 0) = false) as ->.
  { apply Z.eqb_neq. unfold len. destruct set; [contradiction|simpl; lia]. }
  reflexivity.
Qed.

Lemma PinTask_after_AddRange_witness :
  (PinTask (λ _, 0) [2] 0).1 =
    [RawCall SYS_SCHED_SETAFFINITY 0 (wrap (len [2] * wordbytesize)) [2]].
Proof.
  apply (PinTask_after_AddRange (λ _, 0) [] [2] 1 1 0).
  vm_compute. reflexivity.
Defined.



(** *** List.Set on its own, and back through Set.List *)

Lemma List_Set_returns_wf n (l : CPUList) :
  Forall (λ r, 0 ≤ r.1 ∧ r.1 ≤ r.2 ∧ r.2 < 64 * n) l →
  n * 64 ^ len l < uint_modulus →
  ∃ s, List_Set l = Returns s ∧ wf_Set s ∧
       ∀ p, 0 ≤ p → bit_of s p = true ↔ covers l p.
Proof.
  intros Hl Hsmall. unfold List_Set. destruct (len l =? 0) eqn:El.
  - exists []. split; [reflexivity|]. split.
    + split; [constructor|vm_compute; reflexivity].
    + destruct l; [|unfold len in El; simpl in El; lia].
      intros p _. unfold bit_of, covers. rewrite lookup_nil, Exists_nil.
      split; [discriminate|tauto].
  - assert (Hn : 0 ≤ n).
    { destruct l as [|r l]; [discriminate|]. apply Forall_cons in Hl as [Hr _]. lia. }
    assert (Hrev : Forall (λ r, 0 ≤ r.1 ∧ r.1 ≤ r.2 ∧ r.2 < 64 * n) (reverse l))
      by (apply Forall_reverse; exact Hl).
    destruct (List_Set_loop_returns n (reverse l) [] n) as (s & Hrun & Hlen);
      try (unfold len; simpl; lia); [|exact Hrev|].
    { unfold len in *. rewrite length_reverse. exact Hsmall. }
    exists s. split; [exact Hrun|]. split.
    + split; [eapply List_Set_loop_uint; [|exact Hrun]; constructor|].
      unfold len in *. rewrite length_reverse in Hlen. consts. lia.
    + intros p Hp.
      assert (HF : Forall (λ r, 0 ≤ r.1 ∧ r.1 ≤ r.2 ∧ r.2 < uint_modulus - 1) (reverse l)).
      { eapply Forall_impl; [exact Hrev|]. simpl. intros r Hr.
        assert (64 ^ 1 ≤ 64 ^ len l)
          by (apply Z.pow_le_mono_r; unfold len in *; lia).
        unfold len in *. consts. nia. }
      rewrite (List_Set_loop_bits (reverse l) [] s HF Hrun p Hp).
      unfold bit_of, covers. rewrite lookup_nil, !Exists_exists. split.
      * intros [?|(r & Hr & Hin)]; [discriminate|].
        exists r. split; [apply elem_of_reverse; exact Hr|exact Hin].
      * intros (r & Hr & Hin). right. exists r.
        split; [apply elem_of_reverse; exact Hr|exact Hin].
Qed.





Lemma List_Set_loop_inverted n (rs : CPUList) : ∀ (s : CPUSet) q,
  len s * 64 ≤ q → n ≤ q → q * 64 ^ len rs < uint_modulus →
  Forall (λ r, 0 ≤ r.1 ∧ 0 ≤ r.2 ∧ r.2 < 64 * n) rs →
  Exists (λ r, r.2 < r.1) rs →
  List_Set_loop rs s = Panics.
Proof.
  induction rs as [|r rs IH]; intros s q Hs Hn Hq Hrs Hinv; [inversion Hinv|].
  apply Forall_cons in Hrs as [(Hr0 & Hr1 & Hr2) Hrs].
  change (List_Set_loop (r :: rs) s)
    with (s1 ← AddRange s r.1 r.2; List_Set_loop rs s1).
  destruct (decide (r.2 < r.1)) as [Hbad|Hok].
  - unfold AddRange. rewrite gtb_gt by lia. reflexivity.
  - apply Exists_cons in Hinv as [?|Hinv]; [contradiction|].
    assert (Hpow : 64 ^ len (r :: rs) = 64 * 64 ^ len rs).
    { unfold len. simpl length. rewrite Nat2Z.inj_succ, Z.pow_succ_r by lia. reflexivity. }
    assert (Hpos : 0 < 64 ^ len rs) by (apply Z.pow_pos_nonneg; unfold len; lia).
    rewrite Hpow in *.
    assert (Hq0 : 0 ≤ q) by (unfold len in Hs; lia).
    assert (Hqq : q ≤ q * 64 ^ len rs) by nia.
    destruct (AddRange_spec s r.1 r.2) as (s1 & Hadd & Hl1 & _); try (consts; lia).
    assert (Hl1' : len s1 * 64 ≤ 64 * q).
    { rewrite Hl1. unfold AddRange_len. consts.
      assert (r.2 / 64 < n) by (apply Z.div_lt_upper_bound; lia). lia. }
    rewrite Hadd, bind_Returns.
    apply (IH s1 (64 * q)); try lia; assumption.
Qed.

(** X15.  [List.Set] panics on a list that holds an inverted range
    ([from > to]), wherever in the list it stands: [AddRange] panics on it,
    and the ranges added before it did not. *)
Theorem List_Set_inverted_range_panics n (l : CPUList) :
  Forall (λ r, 0 ≤ r.1 ∧ 0 ≤ r.2 ∧ r.2 < 64 * n) l →
  n * 64 ^ len l < uint_modulus →
  Exists (λ r, r.2 < r.1) l →
  List_Set l = Panics.
Proof.
  intros Hl Hsmall Hinv. unfold List_Set.
  destruct l as [|r0 l0] eqn:El; [inversion Hinv|].
  assert ((len (r0 :: l0) =? 0) = false) as ->
    by (apply Z.eqb_neq; unfold len; simpl; lia).
  rewrite <- El in *.
  assert (Hn : 0 ≤ n).
  { rewrite El in Hl. apply Forall_cons in Hl as [Hr _]. lia. }
  apply (List_Set_loop_inverted n (reverse l) [] n); try (unfold len; simpl; lia).
  - unfold len in *. rewrite length_reverse. exact Hsmall.
  - apply Forall_reverse. exact Hl.
  - apply Exists_exists in Hinv as (r & Hr & Hbad).
    apply Exists_exists. exists r. split; [apply elem_of_reverse; exact Hr|exact Hbad].
Qed.

Lemma List_Set_inverted_range_panics_witness :
  List_Set [(1, 2); (9, 4); (70, 71)] = Panics.
Proof.
  apply (List_Set_inverted_range_panics 2 [(1, 2); (9, 4); (70, 71)]).
  - repeat constructor; simpl; lia.
  - vm_compute. reflexivity.
  - apply Exists_cons_tl, Exists_cons_hd. simpl. lia.
Defined.

(** ** Affinity, one caller at a time *)

Lemma copy_length (dst src : CPUSet) : length (copy dst src) = length dst.
Proof. unfold copy. rewrite length_app, length_take, length_drop. lia. Qed.

Lemma make_len n : 0 ≤ n → len (make n) = n.
Proof. intros Hn. unfold len, make. rewrite length_replicate. lia. Qed.

Lemma Affinity_loop_search (os : rawcall → Z * CPUSet) need tid ss :
  kernel_needs os need → 1 ≤ need ≤ 2 ^ 60 →
  ∀ fuel b calls,
    0 ≤ b ≤ 60 → 61 - b ≤ Z.of_nat fuel →
    ∃ (j : nat) set,
      Affinity_loop fuel os tid ss ss (2 ^ b) calls
      = Returns (inl set, 2 ^ (b + Z.of_nat j), calls ++ probes tid b (S j)) ∧
      len set = 2 ^ (b + Z.of_nat j) ∧
      need ≤ 2 ^ (b + Z.of_nat j) ∧
      (j = 0%nat ∨ 2 ^ (b + Z.of_nat j) < 2 * need).
Proof.
  intros Hos Hneed. induction fuel as [|fuel IH]; intros b calls Hb Hfuel; [lia|].
  assert (Hpow : 0 < 2 ^ b ≤ 2 ^ 60).
  { split; [apply Z.pow_pos_nonneg; lia|apply Z.pow_le_mono_r; lia]. }
  change (2 ^ 60) with 1152921504606846976 in *.
  cbn [Affinity_loop]. cbv zeta.
  rewrite make_len by lia.
  rewrite (proj2 (Z.eqb_neq _ _)) by lia.
  rewrite wrap_small by (consts; lia).
  set (call := RawCall SYS_SCHED_GETAFFINITY tid (2 ^ b * wordbytesize) (make (2 ^ b))).
  destruct (os call) as [e written] eqn:Hcall.
  destruct (Hos call) as [[He Hsize]|[He Hsize]];
    rewrite Hcall in He; simpl in He, Hsize; subst e.
  - change (negb (EINVAL =? 0)) with true. change (EINVAL =? EINVAL) with true. cbv iota.
    unfold wordbytesize in Hsize.
    assert (Hb' : b < 60).
    { destruct (decide (b < 60)); [assumption|]. assert (b = 60) as -> by lia.
      change (2 ^ 60) with 1152921504606846976 in *. lia. }
    assert (Hdbl : wrap (2 ^ b * 2) = 2 ^ (b + 1)).
    { rewrite Z.pow_add_r by lia. change (2 ^ 1) with 2. apply wrap_small. consts. lia. }
    rewrite Hdbl.
    destruct (IH (b + 1) (calls ++ [call])) as (j & set & Hrun & Hlen & Hge & Hmin); [lia|lia|].
    replace (b + 1 + Z.of_nat j) with (b + Z.of_nat (S j)) in * by lia.
    exists (S j), set. split.
    { rewrite Hrun. rewrite <- app_assoc. reflexivity. }
    split; [exact Hlen|]. split; [exact Hge|]. right.
    destruct Hmin as [->|Hmin]; [|exact Hmin].
    replace (b + Z.of_nat 1) with (b + 1) by lia.
    rewrite Z.pow_add_r by lia. change (2 ^ 1) with 2. lia.
  - change (negb (0 =? 0)) with false. cbv iota.
    cbn [Affinity_publish]. rewrite Z.eqb_refl. rewrite bind_Returns.
    exists 0%nat, (copy (make (2 ^ b)) written).
    replace (b + Z.of_nat 0) with b by lia.
    split; [reflexivity|]. split.
    { unfold len. rewrite copy_length. apply make_len. lia. }
    unfold wordbytesize in Hsize. split; [lia|left; reflexivity].
Qed.

(** X16.  Against a kernel whose masks take [need] words, a lone [Affinity]
    starting from a cache of [2^a] words probes with [2^a], [2^(a+1)], ...
    words and stops at the first size that is enough: it returns a set of
    that many words and leaves that size in the cache. *)
Theorem Affinity_doubling_search (os : rawcall → Z * CPUSet) need tid a :
  kernel_needs os need → 1 ≤ need ≤ 2 ^ 60 → 0 ≤ a ≤ 60 →
  ∃ (j : nat) set,
    Affinity os tid (2 ^ a)
    = Returns (inl set, 2 ^ (a + Z.of_nat j), probes tid a (S j)) ∧
    len set = 2 ^ (a + Z.of_nat j) ∧
    need ≤ 2 ^ (a + Z.of_nat j) ∧
    (j = 0%nat ∨ 2 ^ (a + Z.of_nat j) < 2 * need).
Proof.
  intros Hos Hneed Ha. unfold Affinity. cbv zeta.
  destruct (Affinity_loop_search os need tid (2 ^ a) Hos Hneed 65 a [] Ha)
    as (j & set & Hrun & Hrest); [lia|].
  exists j, set. split; [exact Hrun|exact Hrest].
Qed.

Lemma kernel_needs_example :
  kernel_needs (λ call, if call_size call <? 24 then (EINVAL, []) else (0, [5; 0; 0])) 3.
Proof.
  intros call. unfold wordbytesize. simpl.
  destruct (Z.ltb_spec (call_size call) 24); simpl; [left|right]; split; (reflexivity || lia).
Qed.

Lemma Affinity_doubling_search_witness :
  ∃ (j : nat) set,
    Affinity (λ call, if call_size call <? 24 then (EINVAL, []) else (0, [5; 0; 0])) 0 (2 ^ 0)
    = Returns (inl set, 2 ^ (0 + Z.of_nat j), probes 0 0 (S j)) ∧
    len set = 2 ^ (0 + Z.of_nat j) ∧
    3 ≤ 2 ^ (0 + Z.of_nat j) ∧
    (j = 0%nat ∨ 2 ^ (0 + Z.of_nat j) < 2 * 3).
Proof.
  apply (Affinity_doubling_search _ 3 0 0).
  - exact kernel_needs_example.
  - vm_compute. split; discriminate.
  - lia.
Defined.

(** X17.  What the cache is for: once a query has succeeded, the next one
    against the same kernel issues a single call, with the remembered size,
    and leaves the cache as it is. *)
Theorem Affinity_second_query_one_call (os : rawcall → Z * CPUSet) need tid a :
  kernel_needs os need → 1 ≤ need ≤ 2 ^ 60 → 0 ≤ a ≤ 60 →
  ∃ (j : nat) set set',
    Affinity os tid (2 ^ a)
    = Returns (inl set, 2 ^ (a + Z.of_nat j), probes tid a (S j)) ∧
    Affinity os tid (2 ^ (a + Z.of_nat j))
    = Returns (inl set', 2 ^ (a + Z.of_nat j), probes tid (a + Z.of_nat j) 1) ∧
    len set' = len set.
Proof.
  intros Hos Hneed Ha. unfold Affinity. cbv zeta.
  destruct (Affinity_loop_search os need tid (2 ^ a) Hos Hneed 65 a [] Ha)
    as (j & set & Hrun & Hlen & Hge & Hmin); [lia|].
  assert (Hj : a + Z.of_nat j ≤ 60).
  { destruct Hmin as [->|Hmin]; [lia|].
    destruct (decide (a + Z.of_nat j ≤ 60)); [assumption|exfalso].
    assert (2 ^ 61 ≤ 2 ^ (a + Z.of_nat j)) by (apply Z.pow_le_mono_r; lia).
    change (2 ^ 61) with 2305843009213693952 in *.
    change (2 ^ 60) with 1152921504606846976 in *. lia. }
  destruct (Affinity_loop_search os need tid (2 ^ (a + Z.of_nat j)) Hos Hneed 65
              (a + Z.of_nat j) []) as (j' & set' & Hrun' & Hlen' & Hge' & Hmin'); [lia|lia|].
  assert (j' = 0%nat) as ->.
  { destruct j' as [|j']; [reflexivity|exfalso].
    destruct Hmin' as [?|Hmin']; [discriminate|].
    assert (2 ^ (a + Z.of_nat j + 1) ≤ 2 ^ (a + Z.of_nat j + Z.of_nat (S j')))
      by (apply Z.pow_le_mono_r; lia).
    assert (E : 2 ^ (a + Z.of_nat j + 1) = 2 * 2 ^ (a + Z.of_nat j))
      by (rewrite Z.pow_add_r by lia; change (2 ^ 1) with 2; lia).
    lia. }
  replace (a + Z.of_nat j + Z.of_nat 0) with (a + Z.of_nat j) in * by lia.
  exists j, set, set'. split; [exact Hrun|]. split; [exact Hrun'|]. lia.
Qed.

Lemma Affinity_second_query_one_call_witness :
  ∃ (j : nat) set set',
    Affinity (λ call, if call_size call <? 24 then (EINVAL, []) else (0, [5; 0; 0])) 0 (2 ^ 0)
    = Returns (inl set, 2 ^ (0 + Z.of_nat j), probes 0 0 (S j)) ∧
    Affinity (λ call, if call_size call <? 24 then (EINVAL, []) else (0, [5; 0; 0])) 0
      (2 ^ (0 + Z.of_nat j))
    = Returns (inl set', 2 ^ (0 + Z.of_nat j), probes 0 (0 + Z.of_nat j) 1) ∧
    len set' = len set.
Proof.
  apply (Affinity_second_query_one_call _ 3 0 0).
  - exact kernel_needs_example.
  - vm_compute. split; discriminate.
  - lia.
Defined.

Lemma Affinity_loop_result (os : rawcall → Z * CPUSet) tid ss :
  ∀ fuel setlen calls0 r c' calls,
    Affinity_loop fuel os tid ss ss setlen calls0 = Returns (r, c', calls) →
    ∃ call, last calls = Some call ∧
      match r with
      | inr e => c' = ss ∧ e ≠ 0 ∧ e ≠ EINVAL ∧ (os call).1 = e
      | inl set => c' = len set ∧ 0 < c' ∧ (os call).1 = 0 ∧
                   call_size call = wrap (c' * wordbytesize) ∧
                   len (call_buf call) = c'
      end.
Proof.
  induction fuel as [|fuel IH]; intros setlen calls0 r c' calls; [discriminate|].
  cbn [Affinity_loop]. cbv zeta.
  destruct (Z.eqb_spec (len (make setlen)) 0) as [|Hne]; [discriminate|].
  assert (Hlen : len (make setlen) = setlen).
  { unfold len, make in *. rewrite length_replicate in *. lia. }
  set (call := RawCall SYS_SCHED_GETAFFINITY tid (wrap (setlen * wordbytesize)) (make setlen)).
  destruct (os call) as [e written] eqn:Hcall.
  destruct (Z.eqb_spec e 0) as [->|He0]; simpl negb; cbv iota.
  - cbn [Affinity_publish]. rewrite Z.eqb_refl, bind_Returns.
    intros [= <- <- <-]. exists call. split; [apply last_snoc|].
    assert (Hl : len (copy (make setlen) written) = setlen)
      by (unfold len in *; rewrite copy_length; exact Hlen).
    rewrite Hl, Hcall. unfold len in Hlen, Hne. simpl.
    split_and!; try reflexivity; try lia. exact Hlen.
  - destruct (Z.eqb_spec e EINVAL) as [->|Hne'].
    + apply IH.
    + intros [= <- <- <-]. exists call. split; [apply last_snoc|].
      rewrite Hcall. simpl. auto.
Qed.

(** X18.  When a lone [Affinity] returns an error, the cache is what it was
    before, and the error is the errno of the last call issued, which is
    neither success nor [EINVAL]. *)
Theorem Affinity_error_leaves_cache (os : rawcall → Z * CPUSet) tid c e c' calls :
  Affinity os tid c = Returns (inr e, c', calls) →
  c' = c ∧ e ≠ 0 ∧ e ≠ EINVAL ∧
  ∃ call, last calls = Some call ∧ (os call).1 = e.
Proof.
  unfold Affinity. cbv zeta. intros Hrun.
  destruct (Affinity_loop_result os tid c 65 c [] _ _ _ Hrun) as (call & Hlast & Hr).
  destruct Hr as (Hc & He0 & Hei & Hos). eauto 6.
Qed.

Lemma Affinity_error_leaves_cache_witness :
  4 = 4 ∧ 13 ≠ 0 ∧ 13 ≠ EINVAL ∧
  ∃ call, last [RawCall SYS_SCHED_GETAFFINITY 0 32 [0; 0; 0; 0]] = Some call ∧
          ((λ _ : rawcall, (13, @nil Z)) call).1 = 13.
Proof.
  apply (Affinity_error_leaves_cache (λ _, (13, [])) 0 4 13 4
           [RawCall SYS_SCHED_GETAFFINITY 0 32 [0; 0; 0; 0]]).
  vm_compute. reflexivity.
Defined.

(** X19.  When a lone [Affinity] returns a set, the cache holds the length
    of that set, which is the length of the buffer of the last call issued,
    the one the kernel answered with success. *)
Theorem Affinity_success_publishes (os : rawcall → Z * CPUSet) tid c set c' calls :
  Affinity os tid c = Returns (inl set, c', calls) →
  c' = len set ∧ 0 < c' ∧
  ∃ call, last calls = Some call ∧ (os call).1 = 0 ∧
          call_size call = wrap (c' * wordbytesize) ∧ len (call_buf call) = c'.
Proof.
  unfold Affinity. cbv zeta. intros Hrun.
  destruct (Affinity_loop_result os tid c 65 c [] _ _ _ Hrun) as (call & Hlast & Hr).
  destruct Hr as (Hc & Hpos & Hos & Hsize & Hbuf). eauto 8.
Qed.

Lemma Affinity_success_publishes_witness :
  2 = len [7; 0] ∧ 0 < 2 ∧
  ∃ call, last [RawCall SYS_SCHED_GETAFFINITY 0 8 [0];
                RawCall SYS_SCHED_GETAFFINITY 0 16 [0; 0]] = Some call ∧
          ((λ c : rawcall, if call_size c <? 16 then (EINVAL, []) else (0, [7])) call).1 = 0 ∧
          call_size call = wrap (2 * wordbytesize) ∧ len (call_buf call) = 2.
Proof.
  apply (Affinity_success_publishes
           (λ c, if call_size c <? 16 then (EINVAL, []) else (0, [7])) 0 1 [7; 0] 2
           [RawCall SYS_SCHED_GETAFFINITY 0 8 [0]; RawCall SYS_SCHED_GETAFFINITY 0 16 [0; 0]]).
  vm_compute. reflexivity.
Defined.

(** ** The size cache under interleaving, further *)

Lemma run_monotone cfg cfg' :
  config_ok cfg → rtc step cfg cfg' → setsize cfg ≤ setsize cfg'.
Proof.
  intros Hok Hrun. induction Hrun as [cfg|cfg mid cfg' Hstep _ IH]; [lia|].
  destruct (step_ok cfg mid Hok Hstep) as [Hmid Hle].
  specialize (IH Hmid). lia.
Qed.

(** X20.  In every state the program can reach, with any number of
    concurrent calls, the cache holds a power of two between 1 and 2^63
    (never zero), and every call about to query the kernel holds a buffer
    size that is such a power of two, not below the cache value it started
    from, or has wrapped to zero after 2^63. *)
Theorem setsize_is_power_of_two (cfg : config) :
  rtc step init cfg →
  (∃ a, 0 ≤ a < 64 ∧ setsize cfg = 2 ^ a) ∧
  ∀ (i : nat) setlenStart setlen,
    tasks cfg !! i = Some (AtSyscall setlenStart setlen) →
    setlen = 0 ∨ ((∃ b, 0 ≤ b < 64 ∧ setlen = 2 ^ b) ∧ setlenStart ≤ setlen).
Proof.
  intros Hreach. destruct (reachable_ok cfg Hreach) as [Hc Hts].
  split; [exact Hc|]. intros i st sl Hi.
  apply (Forall_lookup_1 _ _ _ _ Hts Hi).
Qed.

Lemma setsize_is_power_of_two_witness :
  (∃ a, 0 ≤ a < 64 ∧ setsize (Config 1 [AtSyscall 1 1]) = 2 ^ a) ∧
  ∀ (i : nat) setlenStart setlen,
    tasks (Config 1 [AtSyscall 1 1]) !! i = Some (AtSyscall setlenStart setlen) →
    setlen = 0 ∨ ((∃ b, 0 ≤ b < 64 ∧ setlen = 2 ^ b) ∧ setlenStart ≤ setlen).
Proof.
  apply (setsize_is_power_of_two (Config 1 [AtSyscall 1 1])).
  eapply rtc_l; [exact (step_call 1 [])|].
  eapply rtc_l; [exact (step_move 1 1 [AtLoad] 0 AtLoad _ eq_refl (step_load 1))|].
  apply rtc_refl.
Defined.

(** X21.  A size that worked is not forgotten: when a call of [Affinity]
    leaves the publication loop, by a successful swap or because the cache
    is already larger, the cache is at least the size its query succeeded
    with, and it stays so in every later state, whatever the other calls
    do. *)
Theorem successful_size_is_kept (cfg cfg' : config) (i : nat) t setlen c' :
  rtc step init cfg →
  tasks cfg !! i = Some t →
  (t = AtReload setlen ∨ ∃ setlenStart, t = AtCAS setlenStart setlen) →
  task_step (setsize cfg) t c' (Returned None) →
  rtc step (Config c' (<[i := Returned None]> (tasks cfg))) cfg' →
  setlen ≤ setsize cfg'.
Proof.
  intros Hreach Hi Ht Hstep Hrun.
  pose proof (reachable_ok cfg Hreach) as Hok.
  assert (Hmove : step cfg (Config c' (<[i := Returned None]> (tasks cfg)))).
  { destruct cfg as [c ts]. simpl in *. eapply step_move; eauto. }
  destruct (step_ok _ _ Hok Hmove) as [Hok' _].
  pose proof (run_monotone _ _ Hok' Hrun) as Hmono. simpl in Hmono.
  assert (setlen ≤ c'); [|lia].
  destruct Ht as [->|[st ->]]; inversion Hstep; subst; lia.
Qed.

Lemma successful_size_is_kept_witness : 2 ≤ setsize (Config 2 [Returned None]).
Proof.
  apply (successful_size_is_kept (Config 1 [AtCAS 1 2]) (Config 2 [Returned None])
           0 (AtCAS 1 2) 2 2).
  - eapply rtc_l; [exact (step_call 1 [])|].
    eapply rtc_l; [exact (step_move 1 1 [AtLoad] 0 AtLoad _ eq_refl (step_load 1))|].
    eapply rtc_l.
    { refine (step_move 1 1 [AtSyscall 1 1] 0 _ _ eq_refl (step_einval 1 1 1 _)). lia. }
    eapply rtc_l.
    { refine (step_move 1 1 [AtSyscall 1 2] 0 _ _ eq_refl (step_success 1 1 2 _)). lia. }
    apply rtc_refl.
  - reflexivity.
  - right. exists 1. reflexivity.
  - exact (step_cas_won 1 2).
  - apply rtc_refl.
Defined.
